(** * Room-scoped signaling relay (src/server.js)

    A shallow embedding of the WebSocket signaling server: the two global
    registries [rooms] and [peerByWs], the per-connection closure variables
    [roomId] and [userId], the [message] and [close] handlers, and the helper
    functions [leaveRoom], [broadcastToRoom], [broadcastToRoomExcept] and
    [send].

    Modelling conventions.
    - A WebSocket object is identified by a natural number, handed out in
      connection order.
    - A JavaScript [Set] of sockets is a duplicate-free list in insertion
      order (the order [Array.from] and [forEach] observe).
    - Strings are sequences of 8-bit characters; [trim] and [toLowerCase]
      are the ASCII restrictions of the JavaScript methods.
    - An inbound frame is either text that [JSON.parse] rejects or a JSON
      object whose [type], [roomId], [userId] and [to] fields are strings
      when present; [sdp] and [candidate] are arbitrary JSON values.
    - The template literal that builds a server-side participant id reads
      the clock and a random source; the text after ["user-"] is supplied
      with the inbound frame.
    - Everything sent with [ws.send] is collected, in order, in an outbox of
      (socket, message) packets. *)

From stdpp Require Import base option list gmap strings.
From Stdlib Require Import Ascii.

(** ** Strings *)

Definition is_white_space (a : ascii) : bool :=
  let n := nat_of_ascii a in
  Nat.eqb n 9 || Nat.eqb n 10 || Nat.eqb n 11 || Nat.eqb n 12
  || Nat.eqb n 13 || Nat.eqb n 32.

Fixpoint trimStart (s : string) : string :=
  match s with
  | EmptyString => EmptyString
  | String a r => if is_white_space a then trimStart r else s
  end.

Fixpoint trimEnd (s : string) : string :=
  match s with
  | EmptyString => EmptyString
  | String a r =>
      match trimEnd r with
      | EmptyString => if is_white_space a then EmptyString else String a EmptyString
      | r' => String a r'
      end
  end.

Definition trim (s : string) : string := trimEnd (trimStart s).

Definition lower_char (a : ascii) : ascii :=
  let n := nat_of_ascii a in
  if Nat.leb 65 n && Nat.leb n 90 then ascii_of_nat (n + 32) else a.

Fixpoint toLowerCase (s : string) : string :=
  match s with
  | EmptyString => EmptyString
  | String a r => String (lower_char a) (toLowerCase r)
  end.

(** [x || d] on an optional string: [undefined] and the empty string are falsy. *)
Definition js_or (x : option string) (d : string) : string :=
  match x with
  | Some EmptyString | None => d
  | Some v => v
  end.

(** [!x] on a closure variable that is [null] or a string. *)
Definition js_not (x : option string) : bool :=
  match x with
  | Some EmptyString | None => true
  | Some _ => false
  end.

(** [(msg.roomId || '').trim().toLowerCase()] *)
Definition normalize (roomId : option string) : string :=
  toLowerCase (trim (js_or roomId EmptyString)).

(** ** Data *)

Definition conn := nat.

#[warnings="-register-all"]
Inductive json :=
| JNull
| JBool (b : bool)
| JNum (n : nat)
| JStr (s : string)
| JArr (items : list json)
| JObj (fields : list (string * json)).

(** Value stored in [peerByWs]: [{ roomId, userId }]. *)
Record PeerInfo := mkInfo { info_roomId : string; info_userId : string }.

(** One accepted WebSocket: its [readyState] and the two variables of the
    closure created by the [connection] callback. *)
Record Socket := mkSocket {
  readyState : nat;
  var_roomId : option string;
  var_userId : option string
}.

Definition OPEN : nat := 1.
Definition CLOSING : nat := 2.
Definition CLOSED : nat := 3.

(** A parsed inbound message; [None] is a missing field. *)
Record Msg := mkMsg {
  msg_type : option string;
  msg_roomId : option string;
  msg_userId : option string;
  msg_to : option string;
  msg_sdp : option json;
  msg_candidate : option json
}.

Inductive Raw :=
| NotJson
| Json (msg : Msg).

(** Objects handed to [send]. *)
Inductive Outbound :=
| OutError (message : string)
| OutJoined (roomId userId : string) (peers : list (option string))
| OutPeerJoined (roomId userId : string)
| OutRelay (type : option string) (from to : option string)
    (sdp candidate : option json)
| OutPeerLeft (userId : string).

Definition Packet : Type := conn * Outbound.

Record State := mkState {
  rooms : gmap string (list conn);
  peerByWs : gmap conn PeerInfo;
  sockets : gmap conn Socket;
  next : conn
}.

Definition init : State := mkState ∅ ∅ ∅ 0.

Definition with_rooms (r : gmap string (list conn)) (s : State) : State :=
  mkState r (peerByWs s) (sockets s) (next s).

Definition with_peerByWs (p : gmap conn PeerInfo) (s : State) : State :=
  mkState (rooms s) p (sockets s) (next s).

Definition with_sockets (k : gmap conn Socket) (s : State) : State :=
  mkState (rooms s) (peerByWs s) k (next s).

(** ** JavaScript [Set] operations on a room *)

Definition set_add (ws : conn) (room : list conn) : list conn :=
  if decide (ws ∈ room) then room else room ++ [ws].

Definition set_delete (ws : conn) (room : list conn) : list conn :=
  filter (λ w, w ≠ ws) room.

(** ** Reading a socket *)

Definition is_open (s : State) (ws : conn) : bool :=
  match sockets s !! ws with
  | Some k => Nat.eqb (readyState k) OPEN
  | None => false
  end.

Definition get_roomId (s : State) (ws : conn) : option string :=
  sockets s !! ws ≫= var_roomId.

Definition get_userId (s : State) (ws : conn) : option string :=
  sockets s !! ws ≫= var_userId.

(** [peerByWs.get(w)?.userId] *)
Definition participant_id (s : State) (w : conn) : option string :=
  info_userId <$> peerByWs s !! w.

Definition set_vars (ws : conn) (r u : string) (s : State) : State :=
  with_sockets
    (alter (λ k, mkSocket (readyState k) (Some r) (Some u)) ws (sockets s)) s.

Definition set_readyState (ws : conn) (n : nat) (s : State) : State :=
  with_sockets
    (alter (λ k, mkSocket n (var_roomId k) (var_userId k)) ws (sockets s)) s.

(** ** Helper functions of the server *)

Definition send (s : State) (ws : conn) (payload : Outbound) : list Packet :=
  if is_open s ws then [(ws, payload)] else [].

Definition broadcastToRoom (s : State) (roomId : string) (payload : Outbound)
  : list Packet :=
  match rooms s !! roomId with
  | None => []
  | Some room =>
      flat_map (λ w, if is_open s w then send s w payload else []) room
  end.

Definition broadcastToRoomExcept (s : State) (roomId : string)
    (excludeWs : conn) (payload : Outbound) : list Packet :=
  match rooms s !! roomId with
  | None => []
  | Some room =>
      flat_map
        (λ w, if bool_decide (w ≠ excludeWs) && is_open s w
              then send s w payload else [])
        room
  end.

Definition leaveRoom (s : State) (ws : conn) : State * list Packet :=
  match peerByWs s !! ws with
  | None => (s, [])
  | Some info =>
      let s1 := with_peerByWs (delete ws (peerByWs s)) s in
      match rooms s1 !! info_roomId info with
      | None => (s1, [])
      | Some room =>
          let room' := set_delete ws room in
          let s2 := with_rooms (<[info_roomId info := room']> (rooms s1)) s1 in
          if Nat.eqb (length room') 0
          then (with_rooms (delete (info_roomId info) (rooms s2)) s2, [])
          else (s2, broadcastToRoom s2 (info_roomId info)
                      (OutPeerLeft (info_userId info)))
      end
  end.

(** ** The [message] handler *)

Definition join_case (s : State) (ws : conn) (msg : Msg) (fresh : string)
  : State * list Packet :=
  let requestedRoom := normalize (msg_roomId msg) in
  if js_not (Some requestedRoom) then
    (s, send s ws (OutError "Room ID required"))
  else
    let room := default [] (rooms s !! requestedRoom) in
    if Nat.leb 2 (length room) then
      (s, send s ws (OutError "Room is full (max 2 participants)"))
    else
      let userId := js_or (msg_userId msg) ("user-" +:+ fresh) in
      let roomId := requestedRoom in
      let room' := set_add ws room in
      let s1 := set_vars ws roomId userId s in
      let s2 := with_rooms (<[roomId := room']> (rooms s1)) s1 in
      let s3 := with_peerByWs (<[ws := mkInfo roomId userId]> (peerByWs s2)) s2 in
      let peersInRoom :=
        map (participant_id s3) (filter (λ w, w ≠ ws) room') in
      (s3, send s3 ws (OutJoined roomId userId peersInRoom)
           ++ broadcastToRoomExcept s3 roomId ws (OutPeerJoined roomId userId)).

Definition relay_case (s : State) (ws : conn) (msg : Msg)
  : State * list Packet :=
  if js_not (get_roomId s ws) then
    (s, send s ws (OutError "Join a room first"))
  else
    let targetUserId := msg_to msg in
    match rooms s !! default EmptyString (get_roomId s ws) with
    | None => (s, [])
    | Some room =>
        match
          find (λ w, bool_decide (w ≠ ws)
                     && bool_decide (participant_id s w = targetUserId)) room
        with
        | None => (s, send s ws (OutError "Peer not found or disconnected"))
        | Some targetWs =>
            if negb (is_open s targetWs) then
              (s, send s ws (OutError "Peer not found or disconnected"))
            else
              (s, send s targetWs
                    (OutRelay (msg_type msg) (get_userId s ws) targetUserId
                       (msg_sdp msg) (msg_candidate msg)))
        end
    end.

Definition type_is (msg : Msg) (t : string) : bool :=
  bool_decide (msg_type msg = Some t).

Definition on_message (s : State) (ws : conn) (raw : Raw) (fresh : string)
  : State * list Packet :=
  match raw with
  | NotJson => (s, send s ws (OutError "Invalid JSON"))
  | Json msg =>
      if type_is msg "join" then join_case s ws msg fresh
      else if type_is msg "offer" || type_is msg "answer"
              || type_is msg "ice-candidate" then relay_case s ws msg
      else if type_is msg "leave" then leaveRoom s ws
      else (s, send s ws (OutError "Unknown message type"))
  end.

(** The [close] handler: the transport has already set [readyState] to
    [CLOSED] when it emits the event. *)
Definition on_close (s : State) (ws : conn) : State * list Packet :=
  leaveRoom (set_readyState ws CLOSED s) ws.

(** ** Transport events

    [Connect] is the [connection] callback for a new socket.  [Closing]
    is the transport moving an open socket to [CLOSING] before its [close]
    event.  [Message] and [Close] reach the handlers only on a socket that
    was accepted and whose [close] event has not been emitted yet. *)

Inductive Event :=
| Connect
| Closing (ws : conn)
| Close (ws : conn)
| Message (ws : conn) (raw : Raw) (fresh : string).

Definition live (s : State) (ws : conn) : bool :=
  match sockets s !! ws with
  | Some k => negb (Nat.eqb (readyState k) CLOSED)
  | None => false
  end.

Definition step (s : State) (e : Event) : State * list Packet :=
  match e with
  | Connect =>
      (mkState (rooms s) (peerByWs s)
         (<[next s := mkSocket OPEN None None]> (sockets s)) (S (next s)), [])
  | Closing ws =>
      if is_open s ws then (set_readyState ws CLOSING s, []) else (s, [])
  | Close ws => if live s ws then on_close s ws else (s, [])
  | Message ws raw fresh =>
      if live s ws then on_message s ws raw fresh else (s, [])
  end.

Fixpoint run (s : State) (tr : list Event) : State * list Packet :=
  match tr with
  | [] => (s, [])
  | e :: tr' =>
      let '(s1, out1) := step s e in
      let '(s2, out2) := run s1 tr' in
      (s2, out1 ++ out2)
  end.

Definition state_after (tr : list Event) : State := fst (run init tr).

(** Inbound messages used in the examples. *)
Definition join_msg (roomId : string) (userId : option string) : Raw :=
  Json (mkMsg (Some "join") (Some roomId) userId None None None).

Definition leave_msg : Raw :=
  Json (mkMsg (Some "leave") None None None None None).

Definition offer_msg (to : option string) (sdp : json) : Raw :=
  Json (mkMsg (Some "offer") None None to (Some sdp) None).

(** ** Predicates on states and traces, and sample traces *)

(** Invariant of the states the server can reach: rooms are non-empty
    duplicate-free sets of at most two sockets under a non-empty key; an
    associated socket holds the same room and participant id in its closure
    variables and is a member of that room; socket ids are below [next]. *)
Record Inv (s : State) : Prop := mkInv {
  rooms_ok : ∀ r (room : list conn), rooms s !! r = Some room →
    NoDup room ∧ room ≠ [] ∧ length room ≤ 2 ∧ r ≠ EmptyString;
  assoc_ok : ∀ ws info, peerByWs s !! ws = Some info →
    get_roomId s ws = Some (info_roomId info)
    ∧ get_userId s ws = Some (info_userId info)
    ∧ ∃ room : list conn, rooms s !! info_roomId info = Some room ∧ ws ∈ room;
  vars_ok : ∀ ws, get_roomId s ws ≠ Some EmptyString;
  sockets_ok : ∀ ws k, sockets s !! ws = Some k → ws < next s
}.

(** An associated socket has not had its [close] event yet. *)
Definition AssocLive (s : State) : Prop :=
  ∀ ws info, peerByWs s !! ws = Some info → live s ws = true.

(** The three message types that share the relay case of the [switch]. *)
Definition is_relay_type (t : option string) : Prop :=
  t = Some "offer" ∨ t = Some "answer" ∨ t = Some "ice-candidate".

(** The two error objects the capacity and routing checks send. *)
Definition full_error : Outbound := OutError "Room is full (max 2 participants)".

(** Three sockets connect; sockets 0 and 1 fill room "room1". *)
Definition full_room_trace : list Event :=
  [Connect; Connect; Connect;
   Message 0 (join_msg "Room1 " (Some "alice")) "t0";
   Message 1 (join_msg "room1" (Some "bob")) "t1"].

Definition not_found_error : Outbound := OutError "Peer not found or disconnected".

(** Sockets 0 and 1 join room "lobby"; socket 1 gets a generated id. *)
Definition pair_trace : list Event :=
  [Connect; Connect;
   Message 0 (join_msg "lobby" (Some "alice")) "t0";
   Message 1 (join_msg "Lobby" None) "t1"].

(** An [offer] from socket 0 of [pair_trace] to socket 1. *)
Definition sample_offer : Msg :=
  mkMsg (Some "offer") None None (Some "user-t1")
        (Some (JObj [("type", JStr "offer"); ("sdp", JStr "v=0")])) None.

(** The participant id a [join] records: [msg.userId] when truthy, else the
    generated ["user-..."] token. *)
Definition chosen_userId (msg : Msg) (fresh : string) : string :=
  js_or (msg_userId msg) ("user-" +:+ fresh).

(** The socket was accepted and its [close] event has been emitted. *)
Definition is_closed (s : State) (ws : conn) : Prop :=
  ∃ k, sockets s !! ws = Some k ∧ readyState k = CLOSED.


(** The [join] passes both guards of the handler (non-empty room id, room
    not full). *)
Definition join_accepted (s : State) (msg : Msg) : bool :=
  negb (js_not (Some (normalize (msg_roomId msg))))
  && negb (Nat.leb 2 (length (default [] (rooms s !! normalize (msg_roomId msg))))).

(** The event is an accepted [join] on a socket that is already associated. *)
Definition is_rejoin (s : State) (e : Event) : bool :=
  match e with
  | Message ws (Json msg) _ =>
      type_is msg "join" && join_accepted s msg
      && bool_decide (is_Some (peerByWs s !! ws))
  | _ => false
  end.

(** No event of the trace, run from [s], is such a re-join. *)
Fixpoint no_rejoin (s : State) (tr : list Event) : bool :=
  match tr with
  | [] => true
  | e :: tr' => negb (is_rejoin s e) && no_rejoin (fst (step s e)) tr'
  end.

(** Every member of a room is associated with that room. *)
Definition MemberAssoc (s : State) : Prop :=
  ∀ r (room : list conn) ws, rooms s !! r = Some room → ws ∈ room →
    ∃ info, peerByWs s !! ws = Some info ∧ info_roomId info = r.

(** Socket 0 joins room "a" and then, still associated, room "b". *)
Definition rejoin_trace : list Event :=
  [Connect;
   Message 0 (join_msg "a" (Some "alice")) "t0";
   Message 0 (join_msg "b" (Some "bob")) "t1"].

(** Socket 0 joins "a", leaves, and joins "b"; socket 1 stays in "a". *)
Definition leave_rejoin_trace : list Event :=
  [Connect; Connect;
   Message 0 (join_msg "a" (Some "alice")) "t0";
   Message 1 (join_msg "a" (Some "bob")) "t1";
   Message 0 leave_msg "t2";
   Message 0 (join_msg "b" (Some "alice")) "t3"].

(** The two ways teardown is triggered for socket [ws]. *)
Definition is_teardown (ws : conn) (e : Event) : Prop :=
  e = Close ws
  ∨ ∃ msg fresh, e = Message ws (Json msg) fresh ∧ msg_type msg = Some "leave".

(** Socket 0 is alone in room "den"; socket 1 is connected and idle. *)
Definition solo_trace : list Event :=
  [Connect; Connect; Message 0 (join_msg "Den" (Some "alice")) "t0"].

(** ** Further predicates used by the properties below *)

(** Every character of the string is white space for [trim]. *)
Fixpoint all_white_space (s : string) : bool :=
  match s with
  | EmptyString => true
  | String a r => is_white_space a && all_white_space r
  end.

(** The string is empty or starts with a character [trim] keeps. *)
Definition no_lead_ws (s : string) : bool :=
  match s with
  | EmptyString => true
  | String a _ => negb (is_white_space a)
  end.

Definition room_required_error : Outbound := OutError "Room ID required".

Definition join_first_error : Outbound := OutError "Join a room first".

(** Socket 0 joins room "a" alone and leaves: its [roomId] variable still
    holds "a" while the room is gone. *)
Definition stale_room_trace : list Event :=
  [Connect;
   Message 0 (join_msg "a" (Some "alice")) "t0";
   Message 0 leave_msg "t1"].

(** ** Static file handler (the [http.createServer] callback)

    [path.normalize], [path.join], [path.extname] and [fs.readFile] belong
    to the Node runtime; the handler is modelled over an environment that
    supplies them together with the directory [PUBLIC]. *)

Definition is_sep (a : ascii) : bool :=
  Ascii.eqb a "/"%char || Ascii.eqb a (ascii_of_nat 92).

Definition is_dot (a : ascii) : bool := Ascii.eqb a "."%char.

(** [.replace(/^(\.\.(\/|\\|$))+/, '')]: drop every leading [..] that is
    followed by a slash, a backslash or the end of the string. *)
Fixpoint strip_dotdot (s : string) : string :=
  match s with
  | String a (String b rest) =>
      if is_dot a && is_dot b then
        match rest with
        | EmptyString => EmptyString
        | String c rest' => if is_sep c then strip_dotdot rest' else s
        end
      else s
  | _ => s
  end.

(** The regular expression matches at the start of the string. *)
Definition has_dotdot_prefix (s : string) : bool :=
  match s with
  | String a (String b rest) =>
      is_dot a && is_dot b
      && match rest with
         | EmptyString => true
         | String c _ => is_sep c
         end
  | _ => false
  end.

(** [types[ext] || 'application/octet-stream'], for an [ext] returned by
    [path.extname]: empty or starting with a dot. *)
Definition content_type (ext : string) : string :=
  if String.eqb ext ".html" then "text/html"
  else if String.eqb ext ".js" then "application/javascript"
  else if String.eqb ext ".css" then "text/css"
  else if String.eqb ext ".ico" then "image/x-icon"
  else "application/octet-stream".

Record NodeEnv := mkNodeEnv {
  PUBLIC : string;
  path_normalize : string → string;
  path_join : string → string → string;
  path_extname : string → string;
  readFile : string → option string
}.

Record Response := mkResponse {
  statusCode : nat;
  header_contentType : option string;
  body : option string
}.

Definition handle_request (env : NodeEnv) (url : string) : Response :=
  let filePath := if String.eqb url "/" then "/index.html" else url in
  let fullPath :=
    path_join env (PUBLIC env) (strip_dotdot (path_normalize env filePath)) in
  if negb (String.prefix (PUBLIC env) fullPath) then mkResponse 403 None None
  else
    match readFile env fullPath with
    | None => mkResponse 404 None None
    | Some data =>
        mkResponse 200 (Some (content_type (path_extname env fullPath)))
          (Some data)
    end.

(** A small environment for the examples: paths are joined by
    concatenation and one file exists. *)
Definition sample_env : NodeEnv :=
  mkNodeEnv "/srv/public" (λ p, p) (λ a b, a +:+ b) (λ _, ".html")
    (λ p, if String.eqb p "/srv/public/index.html" then Some "<html>" else None).

(** ** ASCII room ids

    On characters below 128 [is_white_space] and [lower_char] are exactly
    what [trim] and [toLowerCase] do; the properties that depend on the
    result of normalization are stated for room ids in that range. *)

Definition ascii_char (a : ascii) : bool := Nat.ltb (nat_of_ascii a) 128.

Fixpoint ascii_string (s : string) : bool :=
  match s with
  | EmptyString => true
  | String a r => ascii_char a && ascii_string r
  end.

(** The event carries no room id, or an ASCII one. *)
Definition ascii_roomId (e : Event) : bool :=
  match e with
  | Message _ (Json msg) _ => ascii_string (js_or (msg_roomId msg) EmptyString)
  | _ => true
  end.

Definition ascii_trace (tr : list Event) : bool := forallb ascii_roomId tr.

(** * Properties *)

Example normalize_variants :
  normalize (Some "Room1 ") = "room1" ∧ normalize (Some " ROOM1") = "room1"
  ∧ normalize (Some "room1") = "room1" ∧ normalize (Some "  ") = EmptyString
  ∧ normalize None = EmptyString.
Proof. repeat split; reflexivity. Qed.

(** ** Reachable-state invariant *)

Section SetLemmas.
Implicit Types (ws w : conn) (room : list conn).

Lemma elem_of_set_add w ws room : w ∈ set_add ws room ↔ w = ws ∨ w ∈ room.
Proof.
  unfold set_add. destruct (decide (ws ∈ room)) as [Hin|Hin].
  - split; [by right | intros [->|]; done].
  - rewrite elem_of_app, list_elem_of_singleton. tauto.
Qed.

Lemma NoDup_set_add ws room : NoDup room → NoDup (set_add ws room).
Proof.
  intros Hnd. unfold set_add. destruct (decide (ws ∈ room)) as [Hin|Hin]; [done|].
  apply NoDup_app. split; [done|]. split; [|apply NoDup_singleton].
  intros x Hx ->%list_elem_of_singleton. done.
Qed.

Lemma length_set_add ws room :
  length (set_add ws room) = if decide (ws ∈ room) then length room else S (length room).
Proof.
  unfold set_add. destruct (decide (ws ∈ room)); [done|].
  rewrite length_app. simpl. lia.
Qed.

Lemma set_add_nonempty ws room : set_add ws room ≠ [].
Proof.
  intros Heq. assert (Hin : ws ∈ set_add ws room) by (apply elem_of_set_add; by left).
  rewrite Heq in Hin. by apply not_elem_of_nil in Hin.
Qed.

Lemma elem_of_set_delete w ws room : w ∈ set_delete ws room ↔ w ≠ ws ∧ w ∈ room.
Proof. unfold set_delete. by rewrite list_elem_of_filter. Qed.

Lemma NoDup_set_delete ws room : NoDup room → NoDup (set_delete ws room).
Proof. apply NoDup_filter. Qed.

Lemma length_set_delete ws room : length (set_delete ws room) ≤ length room.
Proof. apply length_filter. Qed.

End SetLemmas.

Section Getters.
Implicit Types (s : State) (ws w : conn).

Lemma get_roomId_set_readyState ws n s w :
  get_roomId (set_readyState ws n s) w = get_roomId s w.
Proof.
  unfold get_roomId, set_readyState. simpl.
  destruct (decide (ws = w)) as [->|Hne].
  - rewrite lookup_alter_eq. by destruct (sockets s !! w).
  - by rewrite lookup_alter_ne.
Qed.

Lemma get_userId_set_readyState ws n s w :
  get_userId (set_readyState ws n s) w = get_userId s w.
Proof.
  unfold get_userId, set_readyState. simpl.
  destruct (decide (ws = w)) as [->|Hne].
  - rewrite lookup_alter_eq. by destruct (sockets s !! w).
  - by rewrite lookup_alter_ne.
Qed.

Lemma get_roomId_set_vars ws r u s w :
  get_roomId (set_vars ws r u s) w =
  if decide (ws = w) then (sockets s !! w ≫= λ _, Some r) else get_roomId s w.
Proof.
  unfold get_roomId, set_vars. simpl. destruct (decide (ws = w)) as [->|Hne].
  - rewrite lookup_alter_eq. by destruct (sockets s !! w).
  - by rewrite lookup_alter_ne.
Qed.

Lemma get_userId_set_vars ws r u s w :
  get_userId (set_vars ws r u s) w =
  if decide (ws = w) then (sockets s !! w ≫= λ _, Some u) else get_userId s w.
Proof.
  unfold get_userId, set_vars. simpl. destruct (decide (ws = w)) as [->|Hne].
  - rewrite lookup_alter_eq. by destruct (sockets s !! w).
  - by rewrite lookup_alter_ne.
Qed.

Lemma is_open_set_vars ws r u s w : is_open (set_vars ws r u s) w = is_open s w.
Proof.
  unfold is_open, set_vars. simpl. destruct (decide (ws = w)) as [->|Hne].
  - rewrite lookup_alter_eq. by destruct (sockets s !! w).
  - by rewrite lookup_alter_ne.
Qed.

Lemma is_open_socket s ws : is_open s ws = true → is_Some (sockets s !! ws).
Proof. unfold is_open. destruct (sockets s !! ws); [eauto | done]. Qed.

Lemma live_socket s ws : live s ws = true → is_Some (sockets s !! ws).
Proof. unfold live. destruct (sockets s !! ws); [eauto | done]. Qed.

Lemma is_open_live s ws : is_open s ws = true → live s ws = true.
Proof.
  unfold is_open, live. destruct (sockets s !! ws) as [k|]; [|done].
  intros ->%Nat.eqb_eq. done.
Qed.

Lemma js_not_normalize x : js_not (Some x) = false ↔ x ≠ EmptyString.
Proof. destruct x; simpl; split; congruence. Qed.
End Getters.

Section Preservation.
Implicit Types (s : State) (ws w : conn).

Lemma Inv_init : Inv init.
Proof.
  split; simpl.
  - intros r room H. by rewrite lookup_empty in H.
  - intros ws info H. by rewrite lookup_empty in H.
  - intros ws. unfold get_roomId. simpl. by rewrite lookup_empty.
  - intros ws k H. by rewrite lookup_empty in H.
Qed.

Lemma Inv_connect s : Inv s → Inv (fst (step s Connect)).
Proof.
  intros [Hr Ha Hv Hk]. simpl.
  assert (Hfresh : sockets s !! next s = None).
  { destruct (sockets s !! next s) as [k|] eqn:E; [|done].
    apply Hk in E. lia. }
  assert (Hget : ∀ w, w ≠ next s →
    (<[next s := mkSocket OPEN None None]> (sockets s)) !! w = sockets s !! w).
  { intros w Hne. by rewrite lookup_insert_ne. }
  split; simpl.
  - exact Hr.
  - intros ws info Hi. destruct (Ha ws info Hi) as (H1 & H2 & H3).
    assert (Hne : ws ≠ next s).
    { intros ->. unfold get_roomId in H1. by rewrite Hfresh in H1. }
    unfold get_roomId, get_userId in *. simpl. rewrite Hget by done. auto.
  - intros ws. unfold get_roomId. simpl.
    destruct (decide (ws = next s)) as [->|Hne].
    + by rewrite lookup_insert_eq.
    + rewrite Hget by done. apply Hv.
  - intros ws k. destruct (decide (ws = next s)) as [->|Hne].
    + lia.
    + rewrite Hget by done. intros H%Hk. lia.
Qed.

Lemma Inv_set_readyState ws n s : Inv s → Inv (set_readyState ws n s).
Proof.
  intros [Hr Ha Hv Hk]. split.
  - exact Hr.
  - intros w info Hi. rewrite get_roomId_set_readyState, get_userId_set_readyState.
    by apply Ha.
  - intros w. rewrite get_roomId_set_readyState. apply Hv.
  - intros w k. unfold set_readyState. simpl. intros H.
    destruct (sockets s !! w) as [k'|] eqn:E; [by eapply Hk|].
    destruct (decide (ws = w)) as [->|Hne].
    + rewrite lookup_alter_eq, E in H. done.
    + rewrite lookup_alter_ne, E in H by done. done.
Qed.

Lemma Inv_leaveRoom s ws : Inv s → Inv (fst (leaveRoom s ws)).
Proof.
  intros HI. pose proof HI as [Hr Ha Hv Hk]. unfold leaveRoom.
  destruct (peerByWs s !! ws) as [info|] eqn:Ei; [|done].
  destruct (Ha ws info Ei) as (_ & _ & room & Er & Hin).
  simpl. rewrite Er.
  destruct (Nat.eqb (length (set_delete ws room)) 0) eqn:El; simpl.
  - apply Nat.eqb_eq, nil_length_inv in El.
    rewrite delete_insert_eq.
    split; simpl.
    + intros r rm H. apply lookup_delete_Some in H as [_ H]. by eapply Hr.
    + intros w i H. apply lookup_delete_Some in H as [Hne H].
      destruct (Ha w i H) as (H1 & H2 & rm & H3 & H4).
      split; [done|]. split; [done|]. exists rm. split; [|done].
      rewrite lookup_delete_ne; [done|]. intros Heq. rewrite <- Heq in H3.
      assert (rm = room) by congruence. subst rm.
      assert (Hd : w ∈ set_delete ws room) by (apply elem_of_set_delete; auto).
      rewrite El in Hd. by apply not_elem_of_nil in Hd.
    + exact Hv.
    + exact Hk.
  - apply Nat.eqb_neq in El.
    split; simpl.
    + intros r rm H. apply lookup_insert_Some in H as [[<- <-]|[Hne H]].
      * destruct (Hr _ _ Er) as (N1 & N2 & N3 & N4).
        split; [by apply NoDup_set_delete|]. split.
        { intros Heq. by rewrite Heq in El. }
        split; [|done]. pose proof (length_set_delete ws room). lia.
      * by eapply Hr.
    + intros w i H. apply lookup_delete_Some in H as [Hne H].
      destruct (Ha w i H) as (H1 & H2 & rm & H3 & H4).
      split; [done|]. split; [done|].
      destruct (decide (info_roomId info = info_roomId i)) as [Heq|Hneq].
      * rewrite <- Heq in *. assert (rm = room) by congruence. subst rm.
        exists (set_delete ws room). rewrite lookup_insert_eq.
        split; [done|]. apply elem_of_set_delete; auto.
      * exists rm. by rewrite lookup_insert_ne.
    + exact Hv.
    + exact Hk.
Qed.

Lemma Inv_set_vars_sockets ws r u s :
  (∀ w k, sockets s !! w = Some k → w < next s) →
  ∀ w k, sockets (set_vars ws r u s) !! w = Some k → w < next (set_vars ws r u s).
Proof.
  intros Hk w k. unfold set_vars. simpl. intros H.
  destruct (sockets s !! w) as [k'|] eqn:E; [by eapply Hk|].
  destruct (decide (ws = w)) as [->|Hne].
  - rewrite lookup_alter_eq, E in H. done.
  - rewrite lookup_alter_ne, E in H by done. done.
Qed.

Lemma Inv_join s ws msg fresh :
  Inv s → is_Some (sockets s !! ws) → Inv (fst (join_case s ws msg fresh)).
Proof.
  intros HI [k Hsock]. pose proof HI as [Hr Ha Hv Hk]. unfold join_case.
  destruct (js_not (Some (normalize (msg_roomId msg)))) eqn:En; [done|].
  apply js_not_normalize in En.
  set (r := normalize (msg_roomId msg)) in *.
  set (u := js_or (msg_userId msg) ("user-" +:+ fresh)).
  destruct (Nat.leb 2 (length (default [] (rooms s !! r)))) eqn:El; [done|].
  apply Nat.leb_gt in El. cbn [fst].
  set (room := default [] (rooms s !! r)) in *.
  set (s3 := with_peerByWs _ _).
  assert (Hnd : NoDup room).
  { unfold room. destruct (rooms s !! r) as [rm|] eqn:E; simpl.
    - by destruct (Hr _ _ E). - constructor. }
  assert (Hgr : ∀ w, get_roomId s3 w =
                     if decide (ws = w) then Some r else get_roomId s w).
  { intros w. change (get_roomId s3 w) with (get_roomId (set_vars ws r u s) w).
    rewrite get_roomId_set_vars. case_decide; [subst; by rewrite Hsock|done]. }
  assert (Hgu : ∀ w, get_userId s3 w =
                     if decide (ws = w) then Some u else get_userId s w).
  { intros w. change (get_userId s3 w) with (get_userId (set_vars ws r u s) w).
    rewrite get_userId_set_vars. case_decide; [subst; by rewrite Hsock|done]. }
  assert (Hrooms : rooms s3 = <[r := set_add ws room]> (rooms s)) by done.
  assert (Hpeers : peerByWs s3 = <[ws := mkInfo r u]> (peerByWs s)) by done.
  assert (Hsk : ∀ w k, sockets s3 !! w = Some k → w < next s3).
  { exact (Inv_set_vars_sockets ws r u s Hk). }
  clearbody s3.
  split.
  - intros r' rm H. rewrite Hrooms in H.
    apply lookup_insert_Some in H as [[<- <-]|[Hne H]].
    + split; [by apply NoDup_set_add|]. split; [apply set_add_nonempty|].
      split; [|done]. rewrite length_set_add. case_decide; lia.
    + by eapply Hr.
  - intros w i H. rewrite Hgr, Hgu, Hrooms. rewrite Hpeers in H.
    apply lookup_insert_Some in H as [[<- <-]|[Hne H]]; simpl.
    + rewrite !decide_True by done.
      split; [done|]. split; [done|]. exists (set_add ws room).
      rewrite lookup_insert_eq. split; [done|]. apply elem_of_set_add. by left.
    + rewrite !decide_False by done.
      destruct (Ha w i H) as (H1 & H2 & rm & H3 & H4).
      split; [done|]. split; [done|].
      destruct (decide (r = info_roomId i)) as [Heq|Hneq].
      * exists (set_add ws room). rewrite <- Heq, lookup_insert_eq.
        split; [done|]. apply elem_of_set_add. right.
        unfold room. rewrite <- Heq in H3. by rewrite H3.
      * exists rm. by rewrite lookup_insert_ne.
  - intros w. rewrite Hgr. case_decide; [congruence | apply Hv].
  - exact Hsk.
Qed.

Lemma relay_case_state s ws msg : fst (relay_case s ws msg) = s.
Proof.
  unfold relay_case. destruct (js_not _); [done|].
  destruct (rooms s !! _); [|done]. destruct (find _ _); [|done].
  by destruct (negb _).
Qed.

Lemma Inv_on_message s ws raw fresh :
  Inv s → is_Some (sockets s !! ws) → Inv (fst (on_message s ws raw fresh)).
Proof.
  intros HI Hs. unfold on_message. destruct raw as [|msg]; [done|].
  destruct (type_is msg "join"); [by apply Inv_join|].
  destruct (_ || _); [by rewrite relay_case_state|].
  destruct (type_is msg "leave"); [by apply Inv_leaveRoom|done].
Qed.

Lemma Inv_step s e : Inv s → Inv (fst (step s e)).
Proof.
  intros HI. destruct e as [|ws|ws|ws raw fresh].
  - by apply Inv_connect.
  - simpl. destruct (is_open s ws); [by apply Inv_set_readyState|done].
  - simpl. destruct (live s ws); [|done]. unfold on_close.
    by apply Inv_leaveRoom, Inv_set_readyState.
  - simpl. destruct (live s ws) eqn:E; [|done].
    apply Inv_on_message; [done|by apply live_socket].
Qed.

Lemma Inv_run tr : ∀ s, Inv s → Inv (fst (run s tr)).
Proof.
  induction tr as [|e tr IH]; intros s HI; [done|].
  simpl. pose proof (Inv_step s e HI) as H1.
  destruct (step s e) as [s1 o1]. simpl in H1.
  specialize (IH s1 H1). destruct (run s1 tr) as [s2 o2]. done.
Qed.

Lemma Inv_state_after tr : Inv (state_after tr).
Proof. apply Inv_run, Inv_init. Qed.
End Preservation.

(** ** Associated sockets have not been closed *)

Section Liveness.
Implicit Types (s : State) (ws w : conn).

Lemma leaveRoom_sockets s ws : sockets (fst (leaveRoom s ws)) = sockets s.
Proof.
  unfold leaveRoom. destruct (peerByWs s !! ws); [|done]. simpl.
  destruct (rooms s !! _); [|done]. by destruct (Nat.eqb _ _).
Qed.

Lemma leaveRoom_peerByWs s ws :
  peerByWs (fst (leaveRoom s ws)) = delete ws (peerByWs s).
Proof.
  unfold leaveRoom. destruct (peerByWs s !! ws) eqn:E.
  - simpl. destruct (rooms s !! _); [|done]. by destruct (Nat.eqb _ _).
  - simpl. by rewrite delete_id.
Qed.

Lemma live_sockets s s' w : sockets s = sockets s' → live s w = live s' w.
Proof. unfold live. by intros ->. Qed.

Lemma is_open_sockets s s' w : sockets s = sockets s' → is_open s w = is_open s' w.
Proof. unfold is_open. by intros ->. Qed.

Lemma live_set_vars ws r u s w : live (set_vars ws r u s) w = live s w.
Proof.
  unfold live, set_vars. simpl. destruct (decide (ws = w)) as [->|Hne].
  - rewrite lookup_alter_eq. by destruct (sockets s !! w).
  - by rewrite lookup_alter_ne.
Qed.

Lemma live_set_readyState_ne ws n s w :
  ws ≠ w → live (set_readyState ws n s) w = live s w.
Proof. intros Hne. unfold live, set_readyState. simpl. by rewrite lookup_alter_ne. Qed.

Lemma is_open_set_readyState_ne ws n s w :
  ws ≠ w → is_open (set_readyState ws n s) w = is_open s w.
Proof. intros Hne. unfold is_open, set_readyState. simpl. by rewrite lookup_alter_ne. Qed.

Lemma join_case_sockets_live s ws msg fresh w :
  live (fst (join_case s ws msg fresh)) w = live s w.
Proof.
  unfold join_case. destruct (js_not _); [done|].
  destruct (Nat.leb _ _); [done|]. cbn [fst].
  erewrite live_sockets; [apply live_set_vars|done].
Qed.

Lemma join_case_peerByWs s ws msg fresh w :
  w ≠ ws →
  peerByWs (fst (join_case s ws msg fresh)) !! w = peerByWs s !! w.
Proof.
  intros Hne. unfold join_case. destruct (js_not _); [done|].
  destruct (Nat.leb _ _); [done|]. cbn [fst]. simpl.
  by rewrite lookup_insert_ne.
Qed.

Lemma AssocLive_init : AssocLive init.
Proof. intros ws info H. simpl in H. by rewrite lookup_empty in H. Qed.

Lemma AssocLive_step s e :
  Inv s → AssocLive s → AssocLive (fst (step s e)).
Proof.
  intros HI HL. destruct e as [|ws|ws|ws raw fresh]; cbn [step].
  - intros w info H. simpl in H. pose proof (HL w info H) as Hw.
    destruct (live_socket _ _ Hw) as [k Hk].
    apply (sockets_ok _ HI) in Hk as Hlt.
    unfold live in *. simpl. rewrite lookup_insert_ne by lia. done.
  - destruct (is_open s ws) eqn:Eo; [|done]. cbn [fst].
    intros w info H. simpl in H. pose proof (HL w info H) as Hw.
    destruct (decide (ws = w)) as [->|Hne].
    + unfold live, set_readyState in *. simpl. rewrite lookup_alter_eq.
      by destruct (sockets s !! w).
    + by rewrite live_set_readyState_ne.
  - destruct (live s ws) eqn:El; [|done]. unfold on_close.
    intros w info H. rewrite leaveRoom_peerByWs in H.
    apply lookup_delete_Some in H as [Hne H]. simpl in H.
    erewrite live_sockets; [|apply leaveRoom_sockets].
    rewrite live_set_readyState_ne by done. by eapply HL.
  - destruct (live s ws) eqn:El; [|done].
    unfold on_message. destruct raw as [|msg]; [done|].
    destruct (type_is msg "join").
    { intros w info H. rewrite join_case_sockets_live.
      destruct (decide (w = ws)) as [->|Hne]; [exact El|].
      rewrite join_case_peerByWs in H by done. by eapply HL. }
    destruct (_ || _); [by rewrite relay_case_state|].
    destruct (type_is msg "leave"); [|done].
    intros w info H. rewrite leaveRoom_peerByWs in H.
    apply lookup_delete_Some in H as [Hne H].
    erewrite live_sockets; [|apply leaveRoom_sockets]. by eapply HL.
Qed.

Lemma AssocLive_run tr : ∀ s, Inv s → AssocLive s → AssocLive (fst (run s tr)).
Proof.
  induction tr as [|e tr IH]; intros s HI HL; [done|].
  simpl. pose proof (Inv_step s e HI) as H1.
  pose proof (AssocLive_step s e HI HL) as H2.
  destruct (step s e) as [s1 o1]. simpl in H1, H2.
  specialize (IH s1 H1 H2). destruct (run s1 tr) as [s2 o2]. done.
Qed.

Lemma AssocLive_state_after tr : AssocLive (state_after tr).
Proof. apply AssocLive_run; [apply Inv_init | apply AssocLive_init]. Qed.
End Liveness.

(** ** Dispatch lemmas *)

Section Dispatch.
Implicit Types (s : State) (ws w : conn).

Lemma step_message_live s ws raw fresh :
  live s ws = true → step s (Message ws raw fresh) = on_message s ws raw fresh.
Proof. intros H. cbn [step]. by rewrite H. Qed.

Lemma on_message_join s ws msg fresh :
  msg_type msg = Some "join" →
  on_message s ws (Json msg) fresh = join_case s ws msg fresh.
Proof. intros H. unfold on_message, type_is. by rewrite H. Qed.

Lemma on_message_relay s ws msg fresh :
  is_relay_type (msg_type msg) →
  on_message s ws (Json msg) fresh = relay_case s ws msg.
Proof.
  intros H. unfold on_message, type_is.
  destruct H as [H|[H|H]]; by rewrite H.
Qed.

Lemma on_message_leave s ws msg fresh :
  msg_type msg = Some "leave" →
  on_message s ws (Json msg) fresh = leaveRoom s ws.
Proof. intros H. unfold on_message, type_is. by rewrite H. Qed.

Lemma send_open s ws payload :
  is_open s ws = true → send s ws payload = [(ws, payload)].
Proof. intros H. unfold send. by rewrite H. Qed.

(** A room of at most two distinct sockets that holds [ws] and another
    socket [w] is one of the two orderings of that pair. *)
Lemma room_pair (room : list conn) ws w :
  NoDup room → length room ≤ 2 → ws ∈ room → w ∈ room → w ≠ ws →
  room = [ws; w] ∨ room = [w; ws].
Proof.
  intros Hnd Hlen Hws Hw Hne.
  destruct room as [|x [|y [|z rest]]]; simpl in Hlen; try lia.
  - by apply not_elem_of_nil in Hws.
  - apply list_elem_of_singleton in Hws, Hw. congruence.
  - rewrite !elem_of_cons in Hws, Hw. apply NoDup_cons in Hnd as [Hxy _].
    rewrite list_elem_of_singleton in Hxy.
    destruct Hws as [->|[->|Hws]], Hw as [->|[->|Hw]];
      try done; try (by apply not_elem_of_nil in Hws);
      try (by apply not_elem_of_nil in Hw); auto.
Qed.
End Dispatch.

(** ** Room capacity *)

(** C1. In every state reached by any sequence of transport events each
    room's member set holds at most two sockets; a [join] for a room that
    already has two members, received on an open socket, sends the
    full-room error to that socket only and leaves the whole state (rooms,
    [peerByWs], closure variables) as it was. *)
Theorem room_capacity (tr : list Event) :
  let s := state_after tr in
  (∀ r (room : list conn), rooms s !! r = Some room → length room ≤ 2)
  ∧ (∀ ws msg fresh (room : list conn),
       msg_type msg = Some "join" →
       rooms s !! normalize (msg_roomId msg) = Some room →
       2 ≤ length room →
       is_open s ws = true →
       step s (Message ws (Json msg) fresh) = (s, [(ws, full_error)])).
Proof.
  intros s. pose proof (Inv_state_after tr) as HI. fold s in HI. split.
  - intros r room H. by destruct (rooms_ok _ HI _ _ H) as (_ & _ & Hl & _).
  - intros ws msg fresh room Ht Hr Hlen Ho.
    rewrite step_message_live by by apply is_open_live.
    rewrite on_message_join by done. unfold join_case.
    destruct (rooms_ok _ HI _ _ Hr) as (_ & _ & _ & Hne).
    apply js_not_normalize in Hne. rewrite Hne, Hr. simpl default.
    apply Nat.leb_le in Hlen. rewrite Hlen.
    by rewrite send_open.
Qed.

Lemma room_capacity_witness :
  step (state_after full_room_trace)
       (Message 2 (join_msg " ROOM1" (Some "carol")) "t2")
  = (state_after full_room_trace, [(2, full_error)]).
Proof.
  apply (proj2 (room_capacity full_room_trace) 2 _ "t2" [0; 1]).
  - reflexivity.
  - reflexivity.
  - simpl. lia.
  - reflexivity.
Defined.

(** ** Targeted relay *)

(** C2. In a reachable state, an [offer], [answer] or [ice-candidate]
    message from a joined participant [ws] whose room has another member
    [w] with an open socket and participant id equal to the message's [to]
    is delivered to [w] and to nobody else: the outbox is the single packet
    for [w], carrying the inbound type, [sdp] and [candidate] unchanged,
    [from] the sender's participant id and [to] the target id.  No state
    changes. *)
Theorem relay_delivery (tr : list Event) ws w msg fresh info (room : list conn) :
  let s := state_after tr in
  is_relay_type (msg_type msg) →
  peerByWs s !! ws = Some info →
  rooms s !! info_roomId info = Some room →
  w ∈ room → w ≠ ws →
  is_open s w = true →
  participant_id s w = msg_to msg →
  step s (Message ws (Json msg) fresh)
  = (s, [(w, OutRelay (msg_type msg) (Some (info_userId info)) (msg_to msg)
                (msg_sdp msg) (msg_candidate msg))]).
Proof.
  intros s Ht Hi Hr Hw Hne Ho Hid.
  pose proof (Inv_state_after tr) as HI. fold s in HI.
  pose proof (AssocLive_state_after tr ws info Hi) as Hl. fold s in Hl.
  destruct (assoc_ok _ HI _ _ Hi) as (Hrid & Huid & room' & Hr' & Hws).
  assert (room' = room) by congruence. subst room'.
  destruct (rooms_ok _ HI _ _ Hr) as (Hnd & _ & Hlen & Hnon).
  rewrite step_message_live by done. rewrite on_message_relay by done.
  unfold relay_case. rewrite Hrid. apply js_not_normalize in Hnon.
  rewrite Hnon. simpl default. rewrite Hr.
  assert (Hfind :
    find (λ x, bool_decide (x ≠ ws)
               && bool_decide (participant_id s x = msg_to msg)) room = Some w).
  { destruct (room_pair room ws w Hnd Hlen Hws Hw Hne) as [->| ->]; simpl.
    - rewrite (bool_decide_eq_false_2 (ws ≠ ws)) by auto.
      rewrite (bool_decide_eq_true_2 (w ≠ ws)) by done.
      by rewrite (bool_decide_eq_true_2 (participant_id s w = msg_to msg)).
    - rewrite (bool_decide_eq_true_2 (w ≠ ws)) by done.
      by rewrite (bool_decide_eq_true_2 (participant_id s w = msg_to msg)). }
  rewrite Hfind, Ho. simpl negb. cbv iota.
  by rewrite send_open, Huid.
Qed.

Lemma relay_delivery_witness :
  step (state_after pair_trace) (Message 0 (Json sample_offer) "t2")
  = (state_after pair_trace,
     [(1, OutRelay (Some "offer") (Some "alice") (Some "user-t1")
            (Some (JObj [("type", JStr "offer"); ("sdp", JStr "v=0")])) None)]).
Proof.
  apply (relay_delivery pair_trace 0 1 sample_offer "t2"
           (mkInfo "lobby" "alice") [0; 1]).
  - left. reflexivity.
  - reflexivity.
  - reflexivity.
  - apply list_elem_of_In. simpl. auto.
  - lia.
  - reflexivity.
  - reflexivity.
Defined.

(** C3. In a reachable state, an [offer], [answer] or [ice-candidate]
    message from a joined participant [ws] (open socket) whose room exists
    and has no other member that is both open and has participant id equal
    to the message's [to] produces exactly one packet: the error
    "Peer not found or disconnected" for the sender.  Nothing is delivered
    to any other socket and no state changes. *)
Theorem relay_no_peer (tr : list Event) ws msg fresh info (room : list conn) :
  let s := state_after tr in
  is_relay_type (msg_type msg) →
  peerByWs s !! ws = Some info →
  rooms s !! info_roomId info = Some room →
  (∀ w, w ∈ room → w ≠ ws → is_open s w = true →
        participant_id s w ≠ msg_to msg) →
  is_open s ws = true →
  step s (Message ws (Json msg) fresh) = (s, [(ws, not_found_error)]).
Proof.
  intros s Ht Hi Hr Hno Ho.
  pose proof (Inv_state_after tr) as HI. fold s in HI.
  destruct (assoc_ok _ HI _ _ Hi) as (Hrid & _ & _).
  destruct (rooms_ok _ HI _ _ Hr) as (_ & _ & _ & Hnon).
  rewrite step_message_live by by apply is_open_live.
  rewrite on_message_relay by done.
  unfold relay_case. rewrite Hrid. apply js_not_normalize in Hnon.
  rewrite Hnon. simpl default. rewrite Hr.
  destruct (find _ room) as [t|] eqn:Ef.
  - apply find_some in Ef as [Hin Hp]. apply list_elem_of_In in Hin.
    apply andb_prop in Hp as [Hp1 Hp2].
    apply bool_decide_eq_true in Hp1, Hp2.
    destruct (is_open s t) eqn:Et.
    + by destruct (Hno t Hin Hp1 Et).
    + simpl negb. cbv iota. by rewrite send_open.
  - by rewrite send_open.
Qed.

Lemma relay_no_peer_witness :
  step (state_after pair_trace)
       (Message 0 (offer_msg (Some "carol") (JStr "v=0")) "t2")
  = (state_after pair_trace, [(0, not_found_error)]).
Proof.
  apply (relay_no_peer pair_trace 0 _ "t2" (mkInfo "lobby" "alice") [0; 1]).
  - left. reflexivity.
  - reflexivity.
  - reflexivity.
  - intros w Hw Hne _. apply list_elem_of_In in Hw. simpl in Hw.
    destruct Hw as [<-|[<-|[]]]; [done|]. vm_compute. discriminate.
  - reflexivity.
Defined.

(** ** Joining *)

Section JoinFacts.
Implicit Types (s : State) (ws w : conn).

(** An accepted [join], written out. *)
Lemma join_case_accepted s ws msg fresh :
  normalize (msg_roomId msg) ≠ EmptyString →
  length (default [] (rooms s !! normalize (msg_roomId msg))) < 2 →
  let r := normalize (msg_roomId msg) in
  let u := chosen_userId msg fresh in
  let room' := set_add ws (default [] (rooms s !! r)) in
  let s3 :=
    with_peerByWs (<[ws := mkInfo r u]> (peerByWs s))
      (with_rooms (<[r := room']> (rooms s)) (set_vars ws r u s)) in
  join_case s ws msg fresh
  = (s3, send s3 ws (OutJoined r u
                       (map (participant_id s3) (filter (λ w, w ≠ ws) room')))
         ++ broadcastToRoomExcept s3 r ws (OutPeerJoined r u)).
Proof.
  intros Hne Hlen. unfold join_case.
  apply js_not_normalize in Hne. rewrite Hne.
  apply Nat.leb_gt in Hlen. rewrite Hlen. done.
Qed.
End JoinFacts.

(** C4. In a reachable state where room [r] does not exist, let [a] join
    [r] and then a different socket [b] join [r], both open.  The packets
    sent by the two joins are, in order: [a]'s own [joined] with no peers,
    [b]'s [joined] whose [peers] is exactly [a]'s participant id, and one
    [peer-joined] for [a] carrying [b]'s participant id.  So [b] gets one
    [joined], [a] gets one [peer-joined], and no third socket gets
    anything. *)
Theorem join_pair (tr : list Event) a b ma mb fa fb r :
  let s := state_after tr in
  msg_type ma = Some "join" → msg_type mb = Some "join" →
  normalize (msg_roomId ma) = r → normalize (msg_roomId mb) = r →
  r ≠ EmptyString →
  rooms s !! r = None →
  a ≠ b →
  is_open s a = true → is_open s b = true →
  snd (run s [Message a (Json ma) fa; Message b (Json mb) fb])
  = [(a, OutJoined r (chosen_userId ma fa) []);
     (b, OutJoined r (chosen_userId mb fb) [Some (chosen_userId ma fa)]);
     (a, OutPeerJoined r (chosen_userId mb fb))].
Proof.
  intros s Hta Htb Hra Hrb Hne Hnone Hab Hoa Hob.
  cbn [run].
  rewrite step_message_live by by apply is_open_live.
  rewrite on_message_join by done.
  rewrite join_case_accepted; rewrite Hra; [|done|rewrite Hnone; simpl; lia].
  rewrite Hnone. simpl default. unfold set_add at 1 2 3.
  rewrite decide_False by apply not_elem_of_nil. simpl app.
  set (s1 := with_peerByWs _ _).
  assert (Hopen : ∀ w, is_open s1 w = is_open s w).
  { intros w. unfold s1.
    erewrite is_open_sockets; [apply (is_open_set_vars a r (chosen_userId ma fa))|done]. }
  assert (Hrooms1 : rooms s1 !! r = Some [a]).
  { unfold s1. simpl. by rewrite lookup_insert_eq. }
  assert (Hpeer1 : peerByWs s1 !! a = Some (mkInfo r (chosen_userId ma fa))).
  { unfold s1. simpl. by rewrite lookup_insert_eq. }
  rewrite step_message_live
    by (apply is_open_live; by rewrite Hopen).
  rewrite on_message_join by done.
  rewrite join_case_accepted; rewrite Hrb; [|done|rewrite Hrooms1; simpl; lia].
  rewrite Hrooms1. simpl default. unfold set_add.
  rewrite decide_False by (rewrite list_elem_of_singleton; congruence).
  simpl app.
  set (s2 := with_peerByWs _ _).
  assert (Hopen2 : ∀ w, is_open s2 w = is_open s w).
  { intros w. rewrite <- Hopen. unfold s2.
    erewrite is_open_sockets; [apply (is_open_set_vars b r (chosen_userId mb fb))|done]. }
  assert (Hpa : participant_id s2 a = Some (chosen_userId ma fa)).
  { unfold participant_id.
    change (peerByWs s2)
      with (<[b := mkInfo r (chosen_userId mb fb)]> (peerByWs s1)).
    rewrite lookup_insert_ne by congruence. by rewrite Hpeer1. }
  assert (Hrooms2 : rooms s2 !! r = Some [a; b]).
  { unfold s2. simpl. by rewrite lookup_insert_eq. }
  cbn [snd].
  unfold send at 1. rewrite Hopen.
  unfold broadcastToRoomExcept at 1. rewrite Hrooms1.
  rewrite filter_cons_False by auto. rewrite filter_nil.
  cbn [flat_map map]. rewrite (bool_decide_eq_false_2 (a ≠ a)) by auto.
  rewrite Hoa. cbn [andb app].
  unfold broadcastToRoomExcept. rewrite Hrooms2.
  rewrite filter_cons_True by done.
  rewrite filter_cons_False by auto. rewrite filter_nil.
  cbn [flat_map map]. rewrite Hpa.
  rewrite (bool_decide_eq_true_2 (a ≠ b)) by done.
  rewrite (bool_decide_eq_false_2 (b ≠ b)) by auto.
  unfold send. rewrite !Hopen2, Hoa, Hob. done.
Qed.

Lemma join_pair_witness :
  snd (run (state_after [Connect; Connect])
         [Message 0 (join_msg "Room1 " (Some "alice")) "t0";
          Message 1 (join_msg " ROOM1" None) "t1"])
  = [(0, OutJoined "room1" "alice" []);
     (1, OutJoined "room1" "user-t1" [Some "alice"]);
     (0, OutPeerJoined "room1" "user-t1")].
Proof.
  apply (join_pair [Connect; Connect] 0 1
           (mkMsg (Some "join") (Some "Room1 ") (Some "alice") None None None)
           (mkMsg (Some "join") (Some " ROOM1") None None None None)
           "t0" "t1" "room1");
    try reflexivity; try discriminate.
Defined.

(** ** After teardown *)

Section AfterClose.
Implicit Types (s : State) (ws w : conn).

Lemma is_closed_not_live s ws : is_closed s ws → live s ws = false.
Proof. intros (k & Hk & Hc). unfold live. by rewrite Hk, Hc. Qed.

Lemma is_closed_not_open s ws : is_closed s ws → is_open s ws = false.
Proof. intros (k & Hk & Hc). unfold is_open. by rewrite Hk, Hc. Qed.

Lemma run_app tr1 tr2 s :
  fst (run s (tr1 ++ tr2)) = fst (run (fst (run s tr1)) tr2).
Proof.
  revert s. induction tr1 as [|e tr1 IH]; intros s; [done|].
  simpl. destruct (step s e) as [s1 o1]. specialize (IH s1).
  destruct (run s1 (tr1 ++ tr2)) as [s2 o2].
  destruct (run s1 tr1) as [s3 o3]. done.
Qed.

Lemma on_message_sockets_ne s w raw fresh ws :
  w ≠ ws → sockets (fst (on_message s w raw fresh)) !! ws = sockets s !! ws.
Proof.
  intros Hne. unfold on_message. destruct raw as [|msg]; [done|].
  destruct (type_is msg "join").
  { unfold join_case. destruct (js_not _); [done|].
    destruct (Nat.leb _ _); [done|]. cbn [fst]. simpl.
    by rewrite lookup_alter_ne. }
  destruct (_ || _); [by rewrite relay_case_state|].
  destruct (type_is msg "leave"); [|done]. by rewrite leaveRoom_sockets.
Qed.

Lemma is_closed_step s e ws :
  Inv s → is_closed s ws → is_closed (fst (step s e)) ws.
Proof.
  intros HI Hc. pose proof Hc as (k & Hk & Hrs).
  destruct e as [|w|w|w raw fresh]; cbn [step].
  - exists k. split; [|done]. simpl.
    apply (sockets_ok _ HI) in Hk as Hlt. rewrite lookup_insert_ne by lia. done.
  - destruct (is_open s w) eqn:Eo; [|done]. cbn [fst].
    assert (w ≠ ws).
    { intros ->. rewrite is_closed_not_open in Eo; done. }
    exists k. split; [|done]. simpl. by rewrite lookup_alter_ne.
  - destruct (live s w) eqn:El; [|done].
    assert (w ≠ ws).
    { intros ->. rewrite is_closed_not_live in El; done. }
    exists k. split; [|done]. unfold on_close. rewrite leaveRoom_sockets.
    simpl. by rewrite lookup_alter_ne.
  - destruct (live s w) eqn:El; [|done].
    assert (w ≠ ws).
    { intros ->. rewrite is_closed_not_live in El; done. }
    exists k. split; [|done]. by rewrite on_message_sockets_ne.
Qed.

Lemma is_closed_run tr : ∀ s ws,
  Inv s → is_closed s ws → is_closed (fst (run s tr)) ws.
Proof.
  induction tr as [|e tr IH]; intros s ws HI Hc; [done|].
  simpl. pose proof (Inv_step s e HI) as H1.
  pose proof (is_closed_step s e ws HI Hc) as H2.
  destruct (step s e) as [s1 o1]. simpl in H1, H2.
  specialize (IH s1 ws H1 H2). destruct (run s1 tr) as [s2 o2]. done.
Qed.

Lemma on_close_closes s ws : live s ws = true → is_closed (fst (on_close s ws)) ws.
Proof.
  intros [k Hk]%live_socket. unfold on_close, is_closed.
  rewrite leaveRoom_sockets. simpl. rewrite lookup_alter_eq, Hk. simpl. eauto.
Qed.
End AfterClose.


(** ** One room per socket *)

Section OneRoom.
Implicit Types (s : State) (ws w : conn).

Lemma MemberAssoc_ext s s' :
  rooms s = rooms s' → peerByWs s = peerByWs s' → MemberAssoc s → MemberAssoc s'.
Proof. unfold MemberAssoc. intros <- <-. done. Qed.

Lemma MemberAssoc_init : MemberAssoc init.
Proof. intros r room ws H. simpl in H. by rewrite lookup_empty in H. Qed.

Lemma MemberAssoc_leaveRoom s ws :
  Inv s → MemberAssoc s → MemberAssoc (fst (leaveRoom s ws)).
Proof.
  intros HI HM. unfold leaveRoom.
  destruct (peerByWs s !! ws) as [info|] eqn:Ei; [|done].
  destruct (assoc_ok _ HI ws info Ei) as (_ & _ & room & Er & Hin).
  simpl. rewrite Er.
  assert (Hother : ∀ r' (rm : list conn) w,
    r' ≠ info_roomId info → rooms s !! r' = Some rm → w ∈ rm →
    ∃ i, delete ws (peerByWs s) !! w = Some i ∧ info_roomId i = r').
  { intros r' rm w Hne Hrm Hw. destruct (HM _ _ _ Hrm Hw) as (i & Hi & Hri).
    exists i. split; [|done]. rewrite lookup_delete_ne; [done|].
    intros <-. congruence. }
  assert (Hsame : ∀ w, w ∈ set_delete ws room →
    ∃ i, delete ws (peerByWs s) !! w = Some i ∧ info_roomId i = info_roomId info).
  { intros w [Hne Hw]%elem_of_set_delete.
    destruct (HM _ _ _ Er Hw) as (i & Hi & Hri).
    exists i. split; [|done]. by rewrite lookup_delete_ne. }
  destruct (Nat.eqb (length (set_delete ws room)) 0) eqn:El; cbn [fst].
  - intros r' rm w Hrm Hw. simpl in Hrm |- *.
    rewrite delete_insert_eq in Hrm.
    apply lookup_delete_Some in Hrm as [Hne Hrm]. by eapply Hother.
  - intros r' rm w Hrm Hw. simpl in Hrm |- *.
    apply lookup_insert_Some in Hrm as [[<- <-]|[Hne Hrm]].
    + by apply Hsame.
    + by eapply Hother.
Qed.

Lemma MemberAssoc_join s ws msg fresh :
  MemberAssoc s →
  (join_accepted s msg = true → peerByWs s !! ws = None) →
  MemberAssoc (fst (join_case s ws msg fresh)).
Proof.
  intros HM Hfree. unfold join_case. unfold join_accepted in Hfree.
  destruct (js_not _); [done|].
  destruct (Nat.leb _ _); [done|]. specialize (Hfree eq_refl).
  cbn [fst]. intros r' rm w Hrm Hw. simpl in Hrm |- *.
  set (r := normalize (msg_roomId msg)) in *.
  assert (Hold : ∀ r0 (rm0 : list conn), rooms s !! r0 = Some rm0 → w ∈ rm0 →
    ∃ info, <[ws := mkInfo r (js_or (msg_userId msg) ("user-" +:+ fresh))]>
              (peerByWs s) !! w = Some info ∧ info_roomId info = r0).
  { intros r0 rm0 H0 Hw0. destruct (HM _ _ _ H0 Hw0) as (i & Hi & Hri).
    exists i. split; [|done]. rewrite lookup_insert_ne; [done|].
    intros ->. congruence. }
  apply lookup_insert_Some in Hrm as [[<- <-]|[Hne Hrm]].
  - apply elem_of_set_add in Hw as [->|Hw].
    + eexists. rewrite lookup_insert_eq. done.
    + destruct (rooms s !! r) as [rm0|] eqn:E; simpl in Hw.
      * by eapply Hold.
      * by apply not_elem_of_nil in Hw.
  - by eapply Hold.
Qed.

Lemma MemberAssoc_step s e :
  Inv s → MemberAssoc s → is_rejoin s e = false →
  MemberAssoc (fst (step s e)).
Proof.
  intros HI HM Hn. destruct e as [|ws|ws|ws raw fresh]; cbn [step].
  - by apply (MemberAssoc_ext s).
  - destruct (is_open s ws); [|done]. by apply (MemberAssoc_ext s).
  - destruct (live s ws); [|done]. unfold on_close.
    apply MemberAssoc_leaveRoom; [by apply Inv_set_readyState|].
    by apply (MemberAssoc_ext s).
  - destruct (live s ws); [|done]. unfold on_message.
    destruct raw as [|msg]; [done|]. cbn [is_rejoin] in Hn.
    destruct (type_is msg "join").
    { apply MemberAssoc_join; [done|]. intros Hacc. rewrite Hacc in Hn.
      simpl in Hn. apply bool_decide_eq_false in Hn.
      destruct (peerByWs s !! ws); [|done]. destruct Hn. eauto. }
    destruct (_ || _); [by rewrite relay_case_state|].
    destruct (type_is msg "leave"); [|done]. by apply MemberAssoc_leaveRoom.
Qed.

Lemma MemberAssoc_run tr : ∀ s,
  Inv s → MemberAssoc s → no_rejoin s tr = true → MemberAssoc (fst (run s tr)).
Proof.
  induction tr as [|e tr IH]; intros s HI HM Hn; [done|].
  simpl in Hn. apply andb_prop in Hn as [Hn1 Hn2].
  apply negb_true_iff in Hn1.
  simpl. pose proof (Inv_step s e HI) as H1.
  pose proof (MemberAssoc_step s e HI HM Hn1) as H2.
  destruct (step s e) as [s1 o1]. simpl in H1, H2, Hn2.
  specialize (IH s1 H1 H2 Hn2). destruct (run s1 tr) as [s2 o2]. done.
Qed.
End OneRoom.

(** C6, as stated, fails: socket 0 joins room "a" and then room "b".  The
    second [join] replaces its association, and the socket is left in the
    member sets of both rooms. *)
Lemma rejoin_two_rooms :
  peerByWs (state_after (take 2 rejoin_trace)) !! 0 = Some (mkInfo "a" "alice")
  ∧ peerByWs (state_after rejoin_trace) !! 0 = Some (mkInfo "b" "bob")
  ∧ rooms (state_after rejoin_trace) !! "a" = Some [0]
  ∧ rooms (state_after rejoin_trace) !! "b" = Some [0].
Proof. repeat split; reflexivity. Qed.

(** C6, amended.  [peerByWs] holds at most one association per socket.  In
    every state reached by a trace in which no [join] is accepted from a
    socket that is already associated, every member of a room is associated
    with exactly that room, so no socket is in the member set of two rooms.
    A [join] accepted from an already-associated socket is not guarded: it
    replaces the association. *)
Theorem one_room_without_rejoin :
  (∀ tr : list Event,
     no_rejoin init tr = true →
     let s := state_after tr in
     (∀ r (room : list conn) ws, rooms s !! r = Some room → ws ∈ room →
        ∃ info, peerByWs s !! ws = Some info ∧ info_roomId info = r)
     ∧ (∀ r1 r2 (room1 room2 : list conn) ws,
          rooms s !! r1 = Some room1 → ws ∈ room1 →
          rooms s !! r2 = Some room2 → ws ∈ room2 → r1 = r2))
  ∧ (∀ s ws msg fresh info,
       peerByWs s !! ws = Some info →
       join_accepted s msg = true →
       peerByWs (fst (join_case s ws msg fresh)) !! ws
       = Some (mkInfo (normalize (msg_roomId msg)) (chosen_userId msg fresh))).
Proof.
  split.
  - intros tr Hn s.
    assert (HM : MemberAssoc s).
    { apply MemberAssoc_run; [apply Inv_init | apply MemberAssoc_init | done]. }
    split; [exact HM|].
    intros r1 r2 room1 room2 ws H1 Hw1 H2 Hw2.
    destruct (HM _ _ _ H1 Hw1) as (i1 & Hi1 & <-).
    destruct (HM _ _ _ H2 Hw2) as (i2 & Hi2 & <-). congruence.
  - intros s ws msg fresh info _ Hacc. unfold join_accepted in Hacc.
    apply andb_prop in Hacc as [Ha1 Ha2].
    apply negb_true_iff in Ha1, Ha2.
    unfold join_case. rewrite Ha1, Ha2. cbn [fst]. simpl.
    by rewrite lookup_insert_eq.
Qed.

Lemma one_room_without_rejoin_witness :
  (let s := state_after leave_rejoin_trace in
   (∀ r (room : list conn) ws, rooms s !! r = Some room → ws ∈ room →
      ∃ info, peerByWs s !! ws = Some info ∧ info_roomId info = r)
   ∧ (∀ r1 r2 (room1 room2 : list conn) ws,
        rooms s !! r1 = Some room1 → ws ∈ room1 →
        rooms s !! r2 = Some room2 → ws ∈ room2 → r1 = r2))
  ∧ peerByWs (fst (join_case (state_after (take 2 rejoin_trace)) 0
                     (mkMsg (Some "join") (Some "b") (Some "bob") None None None)
                     "t1")) !! 0
    = Some (mkInfo "b" "bob").
Proof.
  split.
  - apply (proj1 one_room_without_rejoin leave_rejoin_trace). reflexivity.
  - apply (proj2 one_room_without_rejoin (state_after (take 2 rejoin_trace)) 0
             (mkMsg (Some "join") (Some "b") (Some "bob") None None None) "t1"
             (mkInfo "a" "alice")).
    + reflexivity.
    + reflexivity.
Defined.

(** ** Last member leaving *)

Section Teardown.
Implicit Types (s : State) (ws w : conn).



End Teardown.



(** ** Notifying the remaining peer *)

(** C8. In a reachable state, let [a] and [b] be two different joined
    participants of the same room.  When [a] disconnects, the packets sent
    are exactly one [peer-left] for [b] carrying [a]'s participant id when
    [b]'s socket is open, and none otherwise; [a] is sent nothing. *)
Theorem peer_left_on_disconnect (tr : list Event) a b ia ib :
  let s := state_after tr in
  peerByWs s !! a = Some ia →
  peerByWs s !! b = Some ib →
  info_roomId ia = info_roomId ib →
  a ≠ b →
  snd (step s (Close a))
  = if is_open s b then [(b, OutPeerLeft (info_userId ia))] else [].
Proof.
  intros s Ha Hb Hroom Hab.
  pose proof (Inv_state_after tr) as HI. fold s in HI.
  pose proof (AssocLive_state_after tr a ia Ha) as Hl. fold s in Hl.
  destruct (assoc_ok _ HI _ _ Ha) as (_ & _ & room & Hr & Hina).
  destruct (assoc_ok _ HI _ _ Hb) as (_ & _ & room' & Hr' & Hinb).
  rewrite <- Hroom in Hr'. assert (room' = room) by congruence. subst room'.
  destruct (rooms_ok _ HI _ _ Hr) as (Hnd & _ & Hlen & _).
  cbn [step]. rewrite Hl. unfold on_close, leaveRoom.
  change (peerByWs (set_readyState a CLOSED s)) with (peerByWs s).
  rewrite Ha. simpl rooms. rewrite Hr.
  assert (Hdel : set_delete a room = [b]).
  { unfold set_delete.
    destruct (room_pair room a b Hnd Hlen Hina Hinb (not_eq_sym Hab)) as [->| ->].
    - rewrite filter_cons_False by auto. by rewrite filter_cons_True.
    - rewrite filter_cons_True by auto. by rewrite filter_cons_False by auto. }
  rewrite Hdel. simpl Nat.eqb. cbv iota. cbn [snd].
  unfold broadcastToRoom. simpl rooms. rewrite lookup_insert_eq.
  cbn [flat_map]. unfold send.
  erewrite is_open_sockets;
    [rewrite (is_open_set_readyState_ne a CLOSED s b Hab)|done].
  by destruct (is_open s b).
Qed.

Lemma peer_left_on_disconnect_witness :
  snd (step (state_after pair_trace) (Close 0)) = [(1, OutPeerLeft "alice")].
Proof.
  apply (peer_left_on_disconnect pair_trace 0 1
           (mkInfo "lobby" "alice") (mkInfo "lobby" "user-t1"));
    try reflexivity. lia.
Defined.

(** ** Idempotent teardown *)

Example leave_then_close_once :
  let s := state_after pair_trace in
  let after_leave := step s (Message 0 leave_msg "t2") in
  snd after_leave = [(1, OutPeerLeft "alice")]
  ∧ rooms (fst after_leave) !! "lobby" = Some [1]
  ∧ snd (step (fst after_leave) (Close 0)) = [].
Proof. repeat split; reflexivity. Qed.

(** ** A second join by the sole member *)

(** C10. In a reachable state, let [ws] (open) be the only member of room
    [r] and send a [join] whose room id normalizes to [r].  The join is
    accepted: the member set of [r] is still exactly [ws], the only packet
    sent is a [joined] for [ws] with an empty [peers] list (so no
    [peer-joined]), and [ws] is recorded with the participant id chosen by
    this [join] — the generated ["user-..."] token when the message has no
    [userId]. *)
Theorem second_join_by_sole_member (tr : list Event) ws msg fresh r :
  let s := state_after tr in
  let after := step s (Message ws (Json msg) fresh) in
  msg_type msg = Some "join" →
  normalize (msg_roomId msg) = r →
  rooms s !! r = Some [ws] →
  is_open s ws = true →
  rooms (fst after) !! r = Some [ws]
  ∧ snd after = [(ws, OutJoined r (chosen_userId msg fresh) [])]
  ∧ peerByWs (fst after) !! ws = Some (mkInfo r (chosen_userId msg fresh))
  ∧ get_userId (fst after) ws = Some (chosen_userId msg fresh)
  ∧ (msg_userId msg = None → chosen_userId msg fresh = "user-" +:+ fresh).
Proof.
  intros s after Ht Hn Hr Ho.
  pose proof (Inv_state_after tr) as HI. fold s in HI.
  destruct (rooms_ok _ HI _ _ Hr) as (_ & _ & _ & Hne).
  destruct (is_open_socket _ _ Ho) as [k Hk].
  unfold after. rewrite step_message_live by by apply is_open_live.
  rewrite on_message_join by done.
  rewrite join_case_accepted; rewrite Hn; [|done|rewrite Hr; simpl; lia].
  rewrite Hr. simpl default. unfold set_add.
  rewrite decide_True by (apply list_elem_of_singleton; done).
  cbn [fst snd]. split; [|split; [|split; [|split]]].
  - simpl. by rewrite lookup_insert_eq.
  - unfold broadcastToRoomExcept. simpl rooms. rewrite lookup_insert_eq.
    rewrite filter_cons_False by auto. rewrite filter_nil.
    cbn [flat_map map]. rewrite (bool_decide_eq_false_2 (ws ≠ ws)) by auto.
    cbn [andb app]. unfold send.
    erewrite is_open_sockets; [rewrite is_open_set_vars, Ho|done]. done.
  - simpl. by rewrite lookup_insert_eq.
  - unfold get_userId. simpl. rewrite lookup_alter_eq, Hk. done.
  - intros Hu. unfold chosen_userId. by rewrite Hu.
Qed.

Lemma second_join_by_sole_member_witness :
  let after := step (state_after solo_trace) (Message 0 (join_msg " den" None) "t9") in
  rooms (fst after) !! "den" = Some [0]
  ∧ snd after = [(0, OutJoined "den" "user-t9" [])]
  ∧ peerByWs (state_after solo_trace) !! 0 = Some (mkInfo "den" "alice")
  ∧ peerByWs (fst after) !! 0 = Some (mkInfo "den" "user-t9").
Proof.
  destruct (second_join_by_sole_member solo_trace 0
              (mkMsg (Some "join") (Some " den") None None None None) "t9" "den")
    as (H1 & H2 & H3 & _ & _); try reflexivity.
  split; [exact H1|]. split; [exact H2|]. split; [reflexivity|exact H3].
Defined.

(** * Further properties of the server *)

(** ** Room-id normalization *)

Section Normalization.
Implicit Types (s r l : string) (a : ascii).

Lemma is_white_space_lower_char a : is_white_space (lower_char a) = is_white_space a.
Proof. destruct a as [[] [] [] [] [] [] [] []]; reflexivity. Qed.

Lemma lower_char_idemp a : lower_char (lower_char a) = lower_char a.
Proof. destruct a as [[] [] [] [] [] [] [] []]; reflexivity. Qed.

Lemma toLowerCase_idemp s : toLowerCase (toLowerCase s) = toLowerCase s.
Proof. induction s as [|a s IH]; simpl; [done|]. by rewrite lower_char_idemp, IH. Qed.

Lemma toLowerCase_empty s : toLowerCase s = EmptyString ↔ s = EmptyString.
Proof. destruct s; simpl; split; congruence. Qed.

Lemma trimStart_lower s : trimStart (toLowerCase s) = toLowerCase (trimStart s).
Proof.
  induction s as [|a s IH]; simpl; [done|].
  rewrite is_white_space_lower_char. by destruct (is_white_space a).
Qed.

Lemma trimEnd_lower s : trimEnd (toLowerCase s) = toLowerCase (trimEnd s).
Proof.
  induction s as [|a s IH]; simpl; [done|].
  rewrite IH, is_white_space_lower_char.
  destruct (trimEnd s); simpl; [|done]. by destruct (is_white_space a).
Qed.

Lemma no_lead_ws_trimStart s : no_lead_ws (trimStart s) = true.
Proof.
  induction s as [|a s IH]; simpl; [done|].
  destruct (is_white_space a) eqn:E; [done|]. simpl. by rewrite E.
Qed.

Lemma trimStart_no_lead s : no_lead_ws s = true → trimStart s = s.
Proof. destruct s as [|a s]; simpl; [done|]. by destruct (is_white_space a). Qed.

Lemma no_lead_ws_trimEnd s : no_lead_ws s = true → no_lead_ws (trimEnd s) = true.
Proof.
  destruct s as [|a s]; simpl; [done|]. intros Ha.
  apply negb_true_iff in Ha.
  destruct (trimEnd s); rewrite ?Ha; simpl; by rewrite Ha.
Qed.

Lemma trimEnd_idemp s : trimEnd (trimEnd s) = trimEnd s.
Proof.
  induction s as [|a s IH]; simpl; [done|].
  destruct (trimEnd s) as [|b r] eqn:E.
  - destruct (is_white_space a) eqn:Ea; simpl; [done|]. by rewrite Ea.
  - simpl in IH |- *. by rewrite IH.
Qed.

Lemma trim_idemp s : trim (trim s) = trim s.
Proof.
  unfold trim. rewrite (trimStart_no_lead (trimEnd (trimStart s))).
  - apply trimEnd_idemp.
  - apply no_lead_ws_trimEnd, no_lead_ws_trimStart.
Qed.

Lemma trim_lower s : trim (toLowerCase s) = toLowerCase (trim s).
Proof. unfold trim. by rewrite trimStart_lower, trimEnd_lower. Qed.

Lemma trimStart_all_ws s : all_white_space s = true → trimStart s = EmptyString.
Proof.
  induction s as [|a s IH]; simpl; [done|].
  intros [Ha Hs]%andb_prop. rewrite Ha. auto.
Qed.

Lemma trimEnd_empty s : trimEnd s = EmptyString ↔ all_white_space s = true.
Proof.
  induction s as [|a s IH]; simpl; [done|].
  destruct (trimEnd s) as [|b r] eqn:E.
  - destruct (is_white_space a); simpl; [tauto|].
    split; [discriminate|done].
  - split; [discriminate|]. intros [_ Hs]%andb_prop.
    apply IH in Hs. discriminate.
Qed.

Lemma all_white_space_trimStart s :
  all_white_space (trimStart s) = all_white_space s.
Proof.
  induction s as [|a s IH]; simpl; [done|].
  destruct (is_white_space a) eqn:E; simpl; [done|]. by rewrite E.
Qed.

Lemma trim_empty s : trim s = EmptyString ↔ all_white_space s = true.
Proof. unfold trim. by rewrite trimEnd_empty, all_white_space_trimStart. Qed.

Lemma trimEnd_app_ws s r :
  all_white_space r = true → trimEnd (s +:+ r) = trimEnd s.
Proof.
  intros Hr. induction s as [|a s IH]; simpl.
  - by apply trimEnd_empty.
  - by rewrite IH.
Qed.

Lemma trim_app_ws s r : all_white_space r = true → trim (s +:+ r) = trim s.
Proof.
  intros Hr. unfold trim. induction s as [|a s IH]; simpl.
  - by rewrite trimStart_all_ws.
  - destruct (is_white_space a); [done|].
    change (String a (s +:+ r)) with (String a s +:+ r).
    by apply trimEnd_app_ws.
Qed.

Lemma trim_ws_app l s : all_white_space l = true → trim (l +:+ s) = trim s.
Proof.
  intros Hl. unfold trim. f_equal. induction l as [|a l IH]; simpl; [done|].
  simpl in Hl. apply andb_prop in Hl as [Ha Hl]. rewrite Ha. auto.
Qed.

Lemma normalize_Some s : normalize (Some s) = toLowerCase (trim s).
Proof. unfold normalize. by destruct s. Qed.

Lemma normalize_idemp x : normalize (Some (normalize x)) = normalize x.
Proof.
  rewrite normalize_Some. unfold normalize.
  by rewrite trim_lower, trim_idemp, toLowerCase_idemp.
Qed.

Lemma normalize_empty x :
  normalize x = EmptyString ↔ all_white_space (js_or x EmptyString) = true.
Proof. unfold normalize. by rewrite toLowerCase_empty, trim_empty. Qed.
End Normalization.

(** X7. For room ids made of ASCII characters, normalizing is idempotent
    and ignores white space around the id and the case of its letters:
    padding the id with white space on either side, or lower-casing it
    first, gives the same key. *)
Theorem normalize_insensitive (l s r : string) :
  ascii_string l = true → ascii_string s = true → ascii_string r = true →
  all_white_space l = true → all_white_space r = true →
  normalize (Some (l +:+ s +:+ r)) = normalize (Some s)
  ∧ normalize (Some (toLowerCase s)) = normalize (Some s)
  ∧ normalize (Some (normalize (Some s))) = normalize (Some s).
Proof.
  intros _ _ _ Hl Hr. split; [|split].
  - rewrite !normalize_Some. by rewrite trim_ws_app, trim_app_ws.
  - rewrite !normalize_Some. by rewrite trim_lower, toLowerCase_idemp.
  - apply normalize_idemp.
Qed.

Lemma normalize_insensitive_witness :
  normalize (Some (" " +:+ "Room1" +:+ "  ")) = normalize (Some "Room1")
  ∧ normalize (Some (toLowerCase "Room1")) = normalize (Some "Room1")
  ∧ normalize (Some (normalize (Some "Room1"))) = normalize (Some "Room1").
Proof. apply (normalize_insensitive " " "Room1" "  "); reflexivity. Defined.

(** ** Who is sent what *)

Section Packets.
Implicit Types (s : State) (ws w : conn) (p : Packet) (room : list conn).

Lemma elem_of_send s w m p : p ∈ send s w m ↔ is_open s w = true ∧ p = (w, m).
Proof.
  unfold send. destruct (is_open s w).
  - rewrite list_elem_of_singleton. tauto.
  - split; [by intros ?%not_elem_of_nil | by intros [? _]].
Qed.

Lemma flat_map_send s m room (P : conn → bool) :
  flat_map (λ w, if P w && is_open s w then send s w m else []) room
  = map (λ w, (w, m)) (filter (λ w, P w = true ∧ is_open s w = true) room).
Proof.
  induction room as [|x room IH]; [done|]. cbn [flat_map]. rewrite IH.
  unfold send. destruct (P x) eqn:EP, (is_open s x) eqn:Eo; simpl.
  - by rewrite filter_cons_True by auto.
  - rewrite filter_cons_False; [done|]. intros [? ?]; congruence.
  - rewrite filter_cons_False; [done|]. intros [? ?]; congruence.
  - rewrite filter_cons_False; [done|]. intros [? ?]; congruence.
Qed.

Lemma broadcastToRoom_eq s r m :
  broadcastToRoom s r m
  = map (λ w, (w, m))
      (filter (λ w, is_open s w = true) (default [] (rooms s !! r))).
Proof.
  unfold broadcastToRoom. destruct (rooms s !! r) as [room|]; [|done]. simpl.
  induction room as [|x room IH]; [done|]. cbn [flat_map]. rewrite IH.
  unfold send. destruct (is_open s x) eqn:Eo; simpl.
  - by rewrite filter_cons_True.
  - rewrite filter_cons_False; [done|]. congruence.
Qed.

Lemma broadcastToRoomExcept_eq s r ex m :
  broadcastToRoomExcept s r ex m
  = map (λ w, (w, m))
      (filter (λ w, bool_decide (w ≠ ex) = true ∧ is_open s w = true)
         (default [] (rooms s !! r))).
Proof.
  unfold broadcastToRoomExcept. destruct (rooms s !! r) as [room|]; [|done].
  simpl. apply (flat_map_send s m room (λ w, bool_decide (w ≠ ex))).
Qed.

Lemma elem_of_broadcastToRoomExcept s r ex m p :
  p ∈ broadcastToRoomExcept s r ex m →
  snd p = m ∧ fst p ≠ ex ∧ is_open s (fst p) = true
  ∧ ∃ room, rooms s !! r = Some room ∧ fst p ∈ room.
Proof.
  rewrite broadcastToRoomExcept_eq. intros (w & -> & Hw)%list_elem_of_fmap.
  apply list_elem_of_filter in Hw as [[Hne Ho] Hin].
  apply bool_decide_eq_true in Hne. simpl.
  destruct (rooms s !! r) as [room|] eqn:Er; simpl in Hin.
  - eauto 10.
  - by apply not_elem_of_nil in Hin.
Qed.

Lemma leaveRoom_out s ws :
  snd (leaveRoom s ws)
  = match peerByWs s !! ws with
    | None => []
    | Some info =>
        map (λ w, (w, OutPeerLeft (info_userId info)))
          (filter (λ w, is_open s w = true)
             (set_delete ws (default [] (rooms s !! info_roomId info))))
    end.
Proof.
  unfold leaveRoom. destruct (peerByWs s !! ws) as [info|]; [|done].
  simpl. destruct (rooms s !! info_roomId info) as [room|]; [|done]. simpl.
  destruct (Nat.eqb (length (set_delete ws room)) 0) eqn:El.
  - apply Nat.eqb_eq, nil_length_inv in El. by rewrite El.
  - cbn [snd]. rewrite broadcastToRoom_eq. simpl rooms.
    by rewrite lookup_insert_eq.
Qed.

Lemma elem_of_leaveRoom s ws p :
  p ∈ snd (leaveRoom s ws) →
  ∃ info room,
    peerByWs s !! ws = Some info
    ∧ rooms s !! info_roomId info = Some room
    ∧ fst p ∈ room ∧ fst p ≠ ws ∧ is_open s (fst p) = true
    ∧ snd p = OutPeerLeft (info_userId info).
Proof.
  rewrite leaveRoom_out. destruct (peerByWs s !! ws) as [info|].
  - intros (w & -> & Hw)%list_elem_of_fmap.
    apply list_elem_of_filter in Hw as [Ho Hin].
    apply elem_of_set_delete in Hin as [Hne Hin].
    destruct (rooms s !! info_roomId info) as [room|] eqn:Er; simpl in Hin.
    + exists info, room. simpl. auto 10.
    + by apply not_elem_of_nil in Hin.
  - by intros ?%not_elem_of_nil.
Qed.

Lemma join_case_is_open s ws msg fresh w :
  is_open (fst (join_case s ws msg fresh)) w = is_open s w.
Proof.
  unfold join_case. destruct (js_not _); [done|].
  destruct (Nat.leb _ _); [done|]. cbn [fst].
  erewrite is_open_sockets; [apply is_open_set_vars|done].
Qed.

Lemma length_others ws room :
  length room < 2 → length (filter (λ w, w ≠ ws) (set_add ws room)) ≤ 1.
Proof.
  intros Hlen. unfold set_add. destruct (decide (ws ∈ room)).
  - pose proof (length_filter (λ w, w ≠ ws) room). lia.
  - rewrite filter_app, filter_cons_False by auto. rewrite filter_nil.
    rewrite length_app. simpl.
    pose proof (length_filter (λ w, w ≠ ws) room). lia.
Qed.

Lemma join_accepted_spec s msg :
  join_accepted s msg = true ↔
  normalize (msg_roomId msg) ≠ EmptyString
  ∧ length (default [] (rooms s !! normalize (msg_roomId msg))) < 2.
Proof.
  unfold join_accepted. rewrite andb_true_iff, !negb_true_iff.
  rewrite js_not_normalize, Nat.leb_gt. done.
Qed.

Lemma join_case_rejected s ws msg fresh :
  join_accepted s msg = false →
  fst (join_case s ws msg fresh) = s
  ∧ (snd (join_case s ws msg fresh) = send s ws room_required_error
     ∨ snd (join_case s ws msg fresh) = send s ws full_error).
Proof.
  unfold join_accepted, join_case. intros H.
  destruct (js_not _); [by auto|]. destruct (Nat.leb _ _); [by auto|done].
Qed.

Lemma elem_of_join_case s ws msg fresh p :
  p ∈ snd (join_case s ws msg fresh) →
  is_open s (fst p) = true
  ∧ ((join_accepted s msg = false
      ∧ fst (join_case s ws msg fresh) = s
      ∧ snd (join_case s ws msg fresh) = [p] ∧ fst p = ws
      ∧ (snd p = room_required_error ∨ snd p = full_error))
     ∨ (join_accepted s msg = true
        ∧ ((fst p = ws
            ∧ ∃ peers,
                snd p = OutJoined (normalize (msg_roomId msg))
                          (chosen_userId msg fresh) peers
                ∧ length peers ≤ 1)
           ∨ (fst p ≠ ws
              ∧ snd p = OutPeerJoined (normalize (msg_roomId msg))
                          (chosen_userId msg fresh)
              ∧ fst p ∈ default [] (rooms s !! normalize (msg_roomId msg)))))).
Proof.
  intros Hp. destruct (join_accepted s msg) eqn:Ea.
  - apply join_accepted_spec in Ea as Hacc. destruct Hacc as [Hne Hlen].
    rewrite join_case_accepted in Hp by done. cbn [snd] in Hp.
    cbv zeta in Hp. set (s3 := with_peerByWs _ _) in Hp.
    assert (Hopen : ∀ w, is_open s3 w = is_open s w).
    { intros w. unfold s3.
      erewrite is_open_sockets; [apply is_open_set_vars|done]. }
    apply elem_of_app in Hp as [Hp|Hp].
    + apply elem_of_send in Hp as [Ho ->]. rewrite Hopen in Ho.
      split; [done|]. right. split; [done|]. left. split; [done|].
      eexists. split; [done|]. rewrite length_map. by apply length_others.
    + apply elem_of_broadcastToRoomExcept in Hp
        as (Hm & Hne' & Ho & room & Hr & Hin).
      rewrite Hopen in Ho. split; [done|]. right. split; [done|]. right.
      split; [done|]. split; [done|].
      unfold s3 in Hr. simpl in Hr. rewrite lookup_insert_eq in Hr.
      injection Hr as <-. apply elem_of_set_add in Hin as [?|?]; done.
  - destruct (join_case_rejected s ws msg fresh Ea) as [Hs Ho].
    assert (∃ m, snd (join_case s ws msg fresh) = send s ws m
                 ∧ (m = room_required_error ∨ m = full_error)) as (m & Hm & Hor).
    { destruct Ho; eauto. }
    rewrite Hm in Hp |- *. apply elem_of_send in Hp as [Hop ->].
    split; [done|]. left. rewrite send_open by done. auto 10.
Qed.

Lemma elem_of_relay_case s ws msg p :
  p ∈ snd (relay_case s ws msg) →
  snd (relay_case s ws msg) = [p] ∧ is_open s (fst p) = true
  ∧ ((fst p = ws ∧ (snd p = join_first_error ∨ snd p = not_found_error))
     ∨ (fst p ≠ ws
        ∧ snd p = OutRelay (msg_type msg) (get_userId s ws) (msg_to msg)
                    (msg_sdp msg) (msg_candidate msg)
        ∧ participant_id s (fst p) = msg_to msg
        ∧ ∃ r room, get_roomId s ws = Some r ∧ rooms s !! r = Some room
                    ∧ fst p ∈ room)).
Proof.
  unfold relay_case. destruct (js_not (get_roomId s ws)) eqn:En.
  { cbn [snd]. intros [Ho ->]%elem_of_send. rewrite send_open by done. auto 10. }
  destruct (get_roomId s ws) as [r|] eqn:Er; [|done]. simpl default.
  destruct (rooms s !! r) as [room|] eqn:Eroom.
  2:{ cbn [snd]. by intros ?%not_elem_of_nil. }
  destruct (find _ room) as [t|] eqn:Ef.
  2:{ cbn [snd]. intros [Ho ->]%elem_of_send. rewrite send_open by done. auto 10. }
  apply find_some in Ef as [Hin Hp]. apply list_elem_of_In in Hin.
  apply andb_prop in Hp as [Hp1 Hp2].
  apply bool_decide_eq_true in Hp1, Hp2.
  destruct (is_open s t) eqn:Et; simpl negb; cbv iota; cbn [snd].
  - intros [Ho ->]%elem_of_send. rewrite send_open by done.
    split; [done|]. split; [done|]. right. simpl. eauto 10.
  - intros [Ho ->]%elem_of_send. rewrite send_open by done. auto 10.
Qed.

Lemma relay_type_spec msg :
  type_is msg "offer" || type_is msg "answer" || type_is msg "ice-candidate" = true
  ↔ is_relay_type (msg_type msg).
Proof.
  unfold type_is, is_relay_type.
  rewrite !orb_true_iff, !bool_decide_eq_true. tauto.
Qed.

(** The five ways the [message] handler continues. *)
Lemma on_message_cases s ws raw fresh :
  (raw = NotJson
   ∧ on_message s ws raw fresh = (s, send s ws (OutError "Invalid JSON")))
  ∨ (∃ msg, raw = Json msg ∧ msg_type msg = Some "join"
            ∧ on_message s ws raw fresh = join_case s ws msg fresh)
  ∨ (∃ msg, raw = Json msg ∧ is_relay_type (msg_type msg)
            ∧ on_message s ws raw fresh = relay_case s ws msg)
  ∨ (∃ msg, raw = Json msg ∧ msg_type msg = Some "leave"
            ∧ on_message s ws raw fresh = leaveRoom s ws)
  ∨ (∃ msg, raw = Json msg
            ∧ on_message s ws raw fresh
              = (s, send s ws (OutError "Unknown message type"))).
Proof.
  destruct raw as [|msg]; [by left|]. right. unfold on_message.
  destruct (type_is msg "join") eqn:Ej.
  { left. exists msg. apply bool_decide_eq_true in Ej. done. }
  right. destruct (_ || _) eqn:Er.
  { left. exists msg. apply relay_type_spec in Er. done. }
  right. destruct (type_is msg "leave") eqn:El.
  { left. exists msg. apply bool_decide_eq_true in El. done. }
  right. by exists msg.
Qed.

(** A packet of a step comes from the [close] handler or from the
    [message] handler of a socket that is not closed. *)
Lemma step_out s e p :
  p ∈ snd (step s e) →
  (∃ ws, e = Close ws ∧ live s ws = true
         ∧ step s e = leaveRoom (set_readyState ws CLOSED s) ws)
  ∨ (∃ ws raw fresh, e = Message ws raw fresh ∧ live s ws = true
                     ∧ step s e = on_message s ws raw fresh).
Proof.
  destruct e as [|ws|ws|ws raw fresh]; cbn [step].
  - by intros ?%not_elem_of_nil.
  - destruct (is_open s ws); by intros ?%not_elem_of_nil.
  - destruct (live s ws) eqn:El; [|by intros ?%not_elem_of_nil].
    intros _. left. by exists ws.
  - destruct (live s ws) eqn:El; [|by intros ?%not_elem_of_nil].
    intros _. right. by exists ws, raw, fresh.
Qed.

Lemma step_recipient_open s e p :
  p ∈ snd (step s e) → is_open (fst (step s e)) (fst p) = true.
Proof.
  intros Hp. destruct (step_out s e p Hp)
    as [(ws & -> & Hl & Heq)|(ws & raw & fresh & -> & Hl & Heq)];
    rewrite Heq in Hp |- *.
  - apply elem_of_leaveRoom in Hp as (info & room & _ & _ & _ & _ & Ho & _).
    erewrite is_open_sockets; [exact Ho|apply leaveRoom_sockets].
  - destruct (on_message_cases s ws raw fresh)
      as [[_ H]|[(msg & _ & _ & H)|[(msg & _ & _ & H)|[(msg & _ & _ & H)|(msg & _ & H)]]]];
      rewrite H in Hp |- *.
    + by apply elem_of_send in Hp as [Ho ->].
    + rewrite join_case_is_open. by apply elem_of_join_case in Hp as [Ho _].
    + rewrite relay_case_state. by apply elem_of_relay_case in Hp as (_ & Ho & _).
    + apply elem_of_leaveRoom in Hp as (info & room & _ & _ & _ & _ & Ho & _).
      erewrite is_open_sockets; [exact Ho|apply leaveRoom_sockets].
    + by apply elem_of_send in Hp as [Ho ->].
Qed.
End Packets.

(** X1. Whatever the state and the event, every packet the server sends is
    addressed to a socket whose [readyState] is [OPEN] when the handler
    returns: [send] and both broadcast helpers check it. *)
Theorem packets_only_to_open (s : State) (e : Event) (p : Packet) :
  p ∈ snd (step s e) → is_open (fst (step s e)) (fst p) = true.
Proof. apply step_recipient_open. Qed.

Lemma packets_only_to_open_witness :
  is_open (fst (step (state_after pair_trace) (Close 0))) 1 = true.
Proof.
  apply (packets_only_to_open (state_after pair_trace) (Close 0)
           (1, OutPeerLeft "alice")).
  apply list_elem_of_In. vm_compute. auto.
Defined.

(** X2. An [error] reply never comes with a state change: whenever a step
    sends an error to a socket, that step is the handling of a message from
    that very socket, the error is the only packet sent, and the state
    (rooms, [peerByWs], sockets) is exactly as before. *)
Theorem errors_change_nothing (s : State) (e : Event) w m :
  (w, OutError m) ∈ snd (step s e) →
  fst (step s e) = s
  ∧ snd (step s e) = [(w, OutError m)]
  ∧ ∃ raw fresh, e = Message w raw fresh.
Proof.
  intros Hp. destruct (step_out s e _ Hp)
    as [(ws & -> & Hl & Heq)|(ws & raw & fresh & -> & Hl & Heq)];
    rewrite Heq in Hp |- *.
  - apply elem_of_leaveRoom in Hp as (? & ? & _ & _ & _ & _ & _ & Hv).
    discriminate Hv.
  - destruct (on_message_cases s ws raw fresh)
      as [[_ H]|[(msg & _ & _ & H)|[(msg & _ & _ & H)|[(msg & _ & _ & H)|(msg & _ & H)]]]];
      rewrite H in Hp |- *.
    + apply elem_of_send in Hp as [Ho Hq]. injection Hq as -> ->.
      cbn [fst snd]. rewrite send_open by done. eauto.
    + apply elem_of_join_case in Hp
        as [_ [(_ & Hs & Ho & Hw & _)|(_ & [(_ & ? & Hv & _)|(_ & Hv & _)])]];
        [|discriminate Hv|discriminate Hv].
      simpl in Hw. subst w. eauto.
    + apply elem_of_relay_case in Hp
        as (Ho & _ & [(Hw & _)|(_ & Hv & _)]); [|discriminate Hv].
      simpl in Hw. subst w. rewrite relay_case_state. eauto.
    + apply elem_of_leaveRoom in Hp as (? & ? & _ & _ & _ & _ & _ & Hv).
      discriminate Hv.
    + apply elem_of_send in Hp as [Ho Hq]. injection Hq as -> ->.
      cbn [fst snd]. rewrite send_open by done. eauto.
Qed.

Lemma errors_change_nothing_witness :
  fst (step (state_after pair_trace) (Message 1 NotJson "t2"))
  = state_after pair_trace.
Proof.
  apply (errors_change_nothing (state_after pair_trace)
           (Message 1 NotJson "t2") 1 "Invalid JSON").
  apply list_elem_of_In. vm_compute. auto.
Defined.

(** X3. A relayed [offer], [answer] or [ice-candidate] packet only ever
    goes to a room-mate: whenever a step sends such a packet to [w], the
    step handles a relay message from another socket [ws], [w] is a member
    of the room named by [ws]'s [roomId] variable, [w]'s recorded
    participant id is the message's [to], the packet copies the type, [to],
    [sdp] and [candidate] of the message with [from] the sender's [userId]
    variable, it is the only packet, and the state is unchanged. *)
Theorem relay_only_to_roommate (s : State) (e : Event) w t f to sdp cand :
  (w, OutRelay t f to sdp cand) ∈ snd (step s e) →
  ∃ ws msg fresh r (room : list conn),
    e = Message ws (Json msg) fresh
    ∧ is_relay_type (msg_type msg)
    ∧ w ≠ ws
    ∧ get_roomId s ws = Some r ∧ rooms s !! r = Some room ∧ w ∈ room
    ∧ participant_id s w = msg_to msg
    ∧ OutRelay t f to sdp cand
      = OutRelay (msg_type msg) (get_userId s ws) (msg_to msg)
          (msg_sdp msg) (msg_candidate msg)
    ∧ snd (step s e) = [(w, OutRelay t f to sdp cand)]
    ∧ fst (step s e) = s.
Proof.
  intros Hp. destruct (step_out s e _ Hp)
    as [(ws & -> & Hl & Heq)|(ws & raw & fresh & -> & Hl & Heq)];
    rewrite Heq in Hp |- *.
  - apply elem_of_leaveRoom in Hp as (? & ? & _ & _ & _ & _ & _ & Hv).
    discriminate Hv.
  - destruct (on_message_cases s ws raw fresh)
      as [[_ H]|[(msg & _ & _ & H)|[(msg & -> & Ht & H)|[(msg & _ & _ & H)|(msg & _ & H)]]]];
      rewrite H in Hp |- *.
    + apply elem_of_send in Hp as [_ Hq]. discriminate Hq.
    + apply elem_of_join_case in Hp
        as [_ [(_ & _ & _ & _ & [Hv|Hv])|(_ & [(_ & ? & Hv & _)|(_ & Hv & _)])]];
        discriminate Hv.
    + apply elem_of_relay_case in Hp
        as (Ho & _ & [(_ & [Hv|Hv])|(Hne & Hv & Hid & r & room & Hr & Hroom & Hin)]);
        [discriminate Hv|discriminate Hv|].
      simpl in Hne, Hv, Hid, Hin.
      exists ws, msg, fresh, r, room. rewrite relay_case_state. auto 12.
    + apply elem_of_leaveRoom in Hp as (? & ? & _ & _ & _ & _ & _ & Hv).
      discriminate Hv.
    + apply elem_of_send in Hp as [_ Hq]. discriminate Hq.
Qed.

Lemma relay_only_to_roommate_witness :
  ∃ ws msg fresh r (room : list conn),
    Message 0 (Json sample_offer) "t2" = Message ws (Json msg) fresh
    ∧ is_relay_type (msg_type msg)
    ∧ 1 ≠ ws
    ∧ get_roomId (state_after pair_trace) ws = Some r
    ∧ rooms (state_after pair_trace) !! r = Some room ∧ 1 ∈ room
    ∧ participant_id (state_after pair_trace) 1 = msg_to msg
    ∧ OutRelay (Some "offer") (Some "alice") (Some "user-t1")
        (msg_sdp sample_offer) None
      = OutRelay (msg_type msg) (get_userId (state_after pair_trace) ws)
          (msg_to msg) (msg_sdp msg) (msg_candidate msg)
    ∧ snd (step (state_after pair_trace) (Message 0 (Json sample_offer) "t2"))
      = [(1, OutRelay (Some "offer") (Some "alice") (Some "user-t1")
                (msg_sdp sample_offer) None)]
    ∧ fst (step (state_after pair_trace) (Message 0 (Json sample_offer) "t2"))
      = state_after pair_trace.
Proof.
  apply (relay_only_to_roommate (state_after pair_trace)
           (Message 0 (Json sample_offer) "t2") 1).
  apply list_elem_of_In. vm_compute. auto.
Defined.

(** X4. A relay message from an open socket whose [roomId] variable is
    still [null] (no [join] was accepted on it) is answered with the error
    "Join a room first" and nothing else happens. *)
Theorem relay_before_join (s : State) ws msg fresh :
  is_relay_type (msg_type msg) →
  get_roomId s ws = None →
  is_open s ws = true →
  step s (Message ws (Json msg) fresh) = (s, [(ws, join_first_error)]).
Proof.
  intros Ht Hr Ho. rewrite step_message_live by by apply is_open_live.
  rewrite on_message_relay by done. unfold relay_case. rewrite Hr.
  simpl js_not. cbv iota. by rewrite send_open.
Qed.

Lemma relay_before_join_witness :
  step (state_after [Connect]) (Message 0 (Json sample_offer) "t0")
  = (state_after [Connect], [(0, join_first_error)]).
Proof.
  apply (relay_before_join (state_after [Connect]) 0 sample_offer "t0").
  - left. reflexivity.
  - reflexivity.
  - reflexivity.
Defined.

(** X5. In a reachable state, a relay message from a socket whose [roomId]
    variable names a room that is no longer in [rooms] is dropped silently:
    no reply, no delivery, no state change. *)
Theorem relay_room_gone (tr : list Event) ws msg fresh r :
  let s := state_after tr in
  is_relay_type (msg_type msg) →
  get_roomId s ws = Some r →
  rooms s !! r = None →
  step s (Message ws (Json msg) fresh) = (s, []).
Proof.
  intros s Ht Hr Hnone. cbn [step]. destruct (live s ws); [|done].
  rewrite on_message_relay by done. unfold relay_case. rewrite Hr.
  pose proof (vars_ok _ (Inv_state_after tr) ws) as Hne. fold s in Hne.
  rewrite Hr in Hne.
  assert (Hn : js_not (Some r) = false).
  { apply js_not_normalize. congruence. }
  rewrite Hn. simpl default. by rewrite Hnone.
Qed.

Lemma relay_room_gone_witness :
  step (state_after stale_room_trace) (Message 0 (Json sample_offer) "t2")
  = (state_after stale_room_trace, []).
Proof.
  apply (relay_room_gone stale_room_trace 0 sample_offer "t2" "a").
  - left. reflexivity.
  - reflexivity.
  - reflexivity.
Defined.

(** X6. For a [join] received on an open socket whose [roomId] field is
    missing or an ASCII string, the reply is the error "Room ID required"
    with the state unchanged exactly when the field is missing, empty or
    made of white space only. *)
Theorem room_id_required_iff (s : State) ws msg fresh :
  msg_type msg = Some "join" →
  is_open s ws = true →
  ascii_string (js_or (msg_roomId msg) EmptyString) = true →
  step s (Message ws (Json msg) fresh) = (s, [(ws, room_required_error)])
  ↔ all_white_space (js_or (msg_roomId msg) EmptyString) = true.
Proof.
  intros Ht Ho _. rewrite step_message_live by by apply is_open_live.
  rewrite on_message_join by done. rewrite <- normalize_empty. split.
  - intros Heq. destruct (decide (normalize (msg_roomId msg) = EmptyString))
      as [|Hne]; [done|]. exfalso.
    apply (f_equal snd) in Heq. cbn [snd] in Heq.
    destruct (Nat.leb 2 (length (default [] (rooms s !! normalize (msg_roomId msg)))))
      eqn:El.
    + unfold join_case in Heq. apply js_not_normalize in Hne.
      rewrite Hne, El in Heq. cbn [snd] in Heq.
      rewrite send_open in Heq by done. discriminate Heq.
    + apply Nat.leb_gt in El. rewrite join_case_accepted in Heq by done.
      cbn [snd] in Heq. cbv zeta in Heq. unfold send at 1 in Heq.
      set (s3 := with_peerByWs _ _) in Heq.
      assert (Hopen : is_open s3 ws = true).
      { unfold s3. erewrite is_open_sockets; [rewrite is_open_set_vars|]; done. }
      rewrite Hopen in Heq. discriminate Heq.
  - intros Hn. unfold join_case. rewrite Hn. simpl js_not. cbv iota.
    by rewrite send_open.
Qed.

Lemma room_id_required_iff_witness :
  step (state_after [Connect])
       (Message 0 (Json (mkMsg (Some "join") (Some "  ") None None None None)) "t0")
  = (state_after [Connect], [(0, room_required_error)]).
Proof.
  apply (room_id_required_iff (state_after [Connect]) 0
           (mkMsg (Some "join") (Some "  ") None None None None) "t0");
    reflexivity.
Defined.

(** ** How the registries change *)

Section Registries.
Implicit Types (s : State) (ws w : conn) (room : list conn).

Lemma state_after_ind (P : State → Prop) :
  P init → (∀ s e, Inv s → P s → P (fst (step s e))) → ∀ tr, P (state_after tr).
Proof.
  intros H0 Hstep tr. unfold state_after.
  assert (∀ s, Inv s → P s → P (fst (run s tr))) as Hgen.
  { induction tr as [|e tr IH]; intros s HI HP; [done|].
    simpl. pose proof (Inv_step s e HI) as H1.
    pose proof (Hstep s e HI HP) as H2.
    destruct (step s e) as [s1 o1]. simpl in H1, H2.
    specialize (IH s1 H1 H2). by destruct (run s1 tr). }
  apply Hgen; [apply Inv_init | done].
Qed.

Lemma chosen_userId_nonempty msg fresh : chosen_userId msg fresh ≠ EmptyString.
Proof.
  unfold chosen_userId, js_or. destruct (msg_userId msg) as [[|a u]|]; done.
Qed.

Lemma join_case_peerByWs_eq s ws msg fresh :
  peerByWs (fst (join_case s ws msg fresh))
  = if join_accepted s msg
    then <[ws := mkInfo (normalize (msg_roomId msg)) (chosen_userId msg fresh)]>
           (peerByWs s)
    else peerByWs s.
Proof.
  unfold join_case, join_accepted. destruct (js_not _); [done|].
  destruct (Nat.leb _ _); done.
Qed.

Lemma join_case_rooms_eq s ws msg fresh :
  rooms (fst (join_case s ws msg fresh))
  = if join_accepted s msg
    then <[normalize (msg_roomId msg) :=
             set_add ws (default [] (rooms s !! normalize (msg_roomId msg)))]>
           (rooms s)
    else rooms s.
Proof.
  unfold join_case, join_accepted. destruct (js_not _); [done|].
  destruct (Nat.leb _ _); done.
Qed.

Lemma leaveRoom_rooms_eq s ws :
  rooms (fst (leaveRoom s ws))
  = match peerByWs s !! ws with
    | None => rooms s
    | Some info =>
        match rooms s !! info_roomId info with
        | None => rooms s
        | Some room =>
            match set_delete ws room with
            | [] => delete (info_roomId info) (rooms s)
            | room' => <[info_roomId info := room']> (rooms s)
            end
        end
    end.
Proof.
  unfold leaveRoom. destruct (peerByWs s !! ws) as [info|]; [|done]. simpl.
  destruct (rooms s !! info_roomId info) as [room|]; [|done].
  destruct (set_delete ws room) as [|x room'] eqn:E; simpl.
  - by rewrite delete_insert_eq.
  - done.
Qed.

(** What a step can do to one socket's association. *)
Lemma step_peerByWs s e w :
  peerByWs (fst (step s e)) !! w = peerByWs s !! w
  ∨ (peerByWs (fst (step s e)) !! w = None ∧ is_teardown w e)
  ∨ (∃ msg fresh,
       e = Message w (Json msg) fresh ∧ msg_type msg = Some "join"
       ∧ join_accepted s msg = true
       ∧ peerByWs (fst (step s e)) !! w
         = Some (mkInfo (normalize (msg_roomId msg)) (chosen_userId msg fresh))).
Proof.
  destruct e as [|ws|ws|ws raw fresh]; cbn [step].
  - by left.
  - destruct (is_open s ws); by left.
  - destruct (live s ws); [|by left]. unfold on_close.
    rewrite leaveRoom_peerByWs.
    change (peerByWs (set_readyState ws CLOSED s)) with (peerByWs s).
    destruct (decide (ws = w)) as [->|Hne].
    + right. left. rewrite lookup_delete_eq. split; [done|by left].
    + left. by rewrite lookup_delete_ne.
  - destruct (live s ws); [|by left].
    destruct (on_message_cases s ws raw fresh)
      as [[_ H]|[(msg & -> & Ht & H)|[(msg & _ & _ & H)|[(msg & -> & Ht & H)|(msg & _ & H)]]]];
      rewrite H.
    + by left.
    + rewrite join_case_peerByWs_eq.
      destruct (join_accepted s msg) eqn:Ea; [|by left].
      destruct (decide (ws = w)) as [->|Hne].
      * right. right. exists msg, fresh. by rewrite lookup_insert_eq.
      * left. by rewrite lookup_insert_ne.
    + left. by rewrite relay_case_state.
    + rewrite leaveRoom_peerByWs. destruct (decide (ws = w)) as [->|Hne].
      * right. left. rewrite lookup_delete_eq. split; [done|].
        right. by exists msg, fresh.
      * left. by rewrite lookup_delete_ne.
    + by left.
Qed.

(** What a step can do to the set of room keys. *)
Lemma step_rooms_key s e r room :
  rooms (fst (step s e)) !! r = Some room →
  is_Some (rooms s !! r) ∨ ∃ x, r = normalize x.
Proof.
  assert (Hleave : ∀ s0 ws, rooms (fst (leaveRoom s0 ws)) !! r = Some room →
                            is_Some (rooms s0 !! r)).
  { intros s0 ws. rewrite leaveRoom_rooms_eq.
    destruct (peerByWs s0 !! ws) as [info|]; [|by eauto].
    destruct (rooms s0 !! info_roomId info) as [rm|] eqn:Er; [|by eauto].
    destruct (set_delete ws rm).
    - intros [_ H]%lookup_delete_Some. eauto.
    - intros [[<- _]|[_ H]]%lookup_insert_Some; eauto. }
  destruct e as [|ws|ws|ws raw fresh]; cbn [step].
  - simpl. eauto.
  - destruct (is_open s ws); simpl; eauto.
  - destruct (live s ws); [|by eauto]. unfold on_close.
    intros H%Hleave. by left.
  - destruct (live s ws); [|by eauto].
    destruct (on_message_cases s ws raw fresh)
      as [[_ H]|[(msg & -> & Ht & H)|[(msg & _ & _ & H)|[(msg & -> & Ht & H)|(msg & _ & H)]]]];
      rewrite H.
    + simpl. eauto.
    + rewrite join_case_rooms_eq. destruct (join_accepted s msg); [|by eauto].
      intros [[<- _]|[_ H']]%lookup_insert_Some; eauto.
    + rewrite relay_case_state. eauto.
    + intros H'%Hleave. by left.
    + simpl. eauto.
Qed.
End Registries.

(** X8. In every state reached by a trace whose [join] messages carry
    ASCII room ids, each key of [rooms], and the room id of each
    association in [peerByWs], is non-empty and already normalized (trimmed
    and lower case): normalizing it again gives it back. *)
Theorem room_keys_normalized (tr : list Event) :
  let s := state_after tr in
  ascii_trace tr = true →
  (∀ r (room : list conn), rooms s !! r = Some room →
     r ≠ EmptyString ∧ normalize (Some r) = r)
  ∧ (∀ ws info, peerByWs s !! ws = Some info →
       info_roomId info ≠ EmptyString
       ∧ normalize (Some (info_roomId info)) = info_roomId info).
Proof.
  intros s _.
  assert (Hkeys : ∀ r (room : list conn), rooms s !! r = Some room →
                  r ≠ EmptyString ∧ normalize (Some r) = r).
  { intros r room Hr. split.
    - by destruct (rooms_ok _ (Inv_state_after tr) _ _ Hr) as (_ & _ & _ & ?).
    - revert r room Hr. unfold s.
      apply (state_after_ind
               (λ s, ∀ r (room : list conn), rooms s !! r = Some room →
                     normalize (Some r) = r)).
      + intros r room H. simpl in H. by rewrite lookup_empty in H.
      + intros s0 e HI IH r room H.
        destruct (step_rooms_key s0 e r room H) as [[rm Hrm]|[x ->]].
        * by eapply IH.
        * apply normalize_idemp. }
  split; [exact Hkeys|].
  intros ws info Hi.
  destruct (assoc_ok _ (Inv_state_after tr) _ _ Hi) as (_ & _ & room & Hr & _).
  by eapply Hkeys.
Qed.

Lemma room_keys_normalized_witness :
  "lobby" ≠ EmptyString ∧ normalize (Some "lobby") = "lobby".
Proof.
  apply (proj1 (room_keys_normalized pair_trace eq_refl) "lobby" [0; 1]).
  reflexivity.
Defined.

(** X9. In every reachable state at most two sockets are associated with
    the same room: if two different sockets [a] and [b] are associated with
    a room, any socket associated with that room is [a] or [b]. *)
Theorem at_most_two_associated (tr : list Event) a b c ia ib ic :
  let s := state_after tr in
  peerByWs s !! a = Some ia → peerByWs s !! b = Some ib →
  peerByWs s !! c = Some ic →
  info_roomId ia = info_roomId ib → info_roomId ib = info_roomId ic →
  a ≠ b →
  c = a ∨ c = b.
Proof.
  intros s Ha Hb Hc Hab Hbc Nab.
  destruct (decide (c = a)) as [|Nac]; [by left|].
  destruct (decide (c = b)) as [|Nbc]; [by right|]. exfalso.
  pose proof (Inv_state_after tr) as HI. fold s in HI.
  destruct (assoc_ok _ HI _ _ Ha) as (_ & _ & room & Hr & Hina).
  destruct (assoc_ok _ HI _ _ Hb) as (_ & _ & room' & Hr' & Hinb).
  destruct (assoc_ok _ HI _ _ Hc) as (_ & _ & room'' & Hr'' & Hinc).
  rewrite <- Hbc, <- Hab in Hr''. rewrite <- Hab in Hr'.
  assert (room' = room) by congruence. assert (room'' = room) by congruence.
  subst room' room''.
  destruct (rooms_ok _ HI _ _ Hr) as (Hnd & _ & Hlen & _).
  assert (Hsub : [a; b; c] ⊆+ room).
  { apply NoDup_submseteq.
    - apply NoDup_cons. split.
      { rewrite !not_elem_of_cons. repeat split; auto using not_elem_of_nil. }
      apply NoDup_cons. split; [|apply NoDup_singleton].
      rewrite !not_elem_of_cons. repeat split; auto using not_elem_of_nil.
    - intros x Hx. rewrite !elem_of_cons in Hx.
      destruct Hx as [->|[->|[->|Hx]]]; try done.
      by apply not_elem_of_nil in Hx. }
  apply submseteq_length in Hsub. simpl in Hsub. lia.
Qed.

Lemma at_most_two_associated_witness : 1 = 0 ∨ 1 = 1.
Proof.
  apply (at_most_two_associated pair_trace 0 1 1
           (mkInfo "lobby" "alice") (mkInfo "lobby" "user-t1")
           (mkInfo "lobby" "user-t1")); try reflexivity. lia.
Defined.

(** X10. In every reachable state a recorded participant id is never the
    empty string: it is the truthy [userId] of the accepted [join] or a
    generated token starting with ["user-"]. *)
Theorem participant_ids_nonempty (tr : list Event) ws info :
  peerByWs (state_after tr) !! ws = Some info →
  info_userId info ≠ EmptyString.
Proof.
  revert ws info.
  apply (state_after_ind
           (λ s, ∀ ws info, peerByWs s !! ws = Some info →
                 info_userId info ≠ EmptyString)).
  - intros ws info H. simpl in H. by rewrite lookup_empty in H.
  - intros s e HI IH ws info H.
    destruct (step_peerByWs s e ws)
      as [Heq|[[Hnone _]|(msg & fresh & _ & _ & _ & Hnew)]].
    + rewrite Heq in H. by eapply IH.
    + congruence.
    + rewrite Hnew in H. injection H as <-. simpl.
      apply chosen_userId_nonempty.
Qed.

Lemma participant_ids_nonempty_witness :
  info_userId (mkInfo "lobby" "user-t1") ≠ EmptyString.
Proof. apply (participant_ids_nonempty pair_trace 1). reflexivity. Defined.

(** X20. A socket's association changes only through its own events: after
    any step, the entry of [w] in [peerByWs] is what it was, unless the
    event is [w]'s own teardown ([leave] message or [close]), which removes
    it, or an accepted [join] from [w] itself, which sets it to the
    normalized room id and the participant id chosen by that [join]. *)
Theorem association_only_by_own_events (s : State) (e : Event) w :
  peerByWs (fst (step s e)) !! w = peerByWs s !! w
  ∨ (peerByWs (fst (step s e)) !! w = None ∧ is_teardown w e)
  ∨ (∃ msg fresh,
       e = Message w (Json msg) fresh ∧ msg_type msg = Some "join"
       ∧ join_accepted s msg = true
       ∧ peerByWs (fst (step s e)) !! w
         = Some (mkInfo (normalize (msg_roomId msg)) (chosen_userId msg fresh))).
Proof. apply step_peerByWs. Qed.

(** X11. A [joined] reply is only ever sent to a socket in answer to its
    own [join], carries the normalized room id and the participant id
    chosen by that [join], and lists at most one peer: the guard on the
    room size leaves room for one other member at most. *)
Theorem joined_lists_at_most_one_peer (s : State) (e : Event) w r u peers :
  (w, OutJoined r u peers) ∈ snd (step s e) →
  length peers ≤ 1
  ∧ ∃ msg fresh,
      e = Message w (Json msg) fresh ∧ msg_type msg = Some "join"
      ∧ r = normalize (msg_roomId msg) ∧ u = chosen_userId msg fresh
      ∧ join_accepted s msg = true.
Proof.
  intros Hp. destruct (step_out s e _ Hp)
    as [(ws & -> & Hl & Heq)|(ws & raw & fresh & -> & Hl & Heq)];
    rewrite Heq in Hp.
  - apply elem_of_leaveRoom in Hp as (? & ? & _ & _ & _ & _ & _ & Hv).
    discriminate Hv.
  - destruct (on_message_cases s ws raw fresh)
      as [[_ H]|[(msg & -> & Ht & H)|[(msg & _ & _ & H)|[(msg & _ & _ & H)|(msg & _ & H)]]]];
      rewrite H in Hp.
    + apply elem_of_send in Hp as [_ Hq]. discriminate Hq.
    + apply elem_of_join_case in Hp
        as [_ [(_ & _ & _ & _ & [Hv|Hv])|(Ha & [(Hw & ps & Hv & Hlen)|(_ & Hv & _)])]];
        try discriminate Hv.
      simpl in Hw, Hv. subst w. injection Hv as -> -> ->.
      split; [done|]. by exists msg, fresh.
    + apply elem_of_relay_case in Hp
        as (_ & _ & [(_ & [Hv|Hv])|(_ & Hv & _)]); discriminate Hv.
    + apply elem_of_leaveRoom in Hp as (? & ? & _ & _ & _ & _ & _ & Hv).
      discriminate Hv.
    + apply elem_of_send in Hp as [_ Hq]. discriminate Hq.
Qed.

Lemma joined_lists_at_most_one_peer_witness :
  length [Some "alice"] ≤ 1.
Proof.
  apply (joined_lists_at_most_one_peer
           (state_after (take 3 pair_trace))
           (Message 1 (join_msg "Lobby" None) "t1") 1 "lobby" "user-t1"
           [Some "alice"]).
  apply list_elem_of_In. vm_compute. auto.
Defined.

(** X14. A [peer-left] notification is only ever sent because of a
    teardown ([leave] message or [close]) of an associated socket [ws]: it
    carries [ws]'s recorded participant id and goes to another member of
    the room [ws] was associated with, never to [ws] itself. *)
Theorem peer_left_only_to_roommates (s : State) (e : Event) w u :
  (w, OutPeerLeft u) ∈ snd (step s e) →
  ∃ ws info (room : list conn),
    is_teardown ws e
    ∧ peerByWs s !! ws = Some info ∧ u = info_userId info
    ∧ w ≠ ws
    ∧ rooms s !! info_roomId info = Some room ∧ w ∈ room.
Proof.
  intros Hp. destruct (step_out s e _ Hp)
    as [(ws & -> & Hl & Heq)|(ws & raw & fresh & -> & Hl & Heq)];
    rewrite Heq in Hp.
  - apply elem_of_leaveRoom in Hp
      as (info & room & Hi & Hr & Hin & Hne & _ & Hv).
    simpl in Hi, Hr, Hin, Hne, Hv. injection Hv as ->.
    exists ws, info, room. split; [by left|]. auto.
  - destruct (on_message_cases s ws raw fresh)
      as [[_ H]|[(msg & -> & Ht & H)|[(msg & _ & _ & H)|[(msg & -> & Ht & H)|(msg & _ & H)]]]];
      rewrite H in Hp.
    + apply elem_of_send in Hp as [_ Hq]. discriminate Hq.
    + apply elem_of_join_case in Hp
        as [_ [(_ & _ & _ & _ & [Hv|Hv])|(_ & [(_ & ? & Hv & _)|(_ & Hv & _)])]];
        discriminate Hv.
    + apply elem_of_relay_case in Hp
        as (_ & _ & [(_ & [Hv|Hv])|(_ & Hv & _)]); discriminate Hv.
    + apply elem_of_leaveRoom in Hp
        as (info & room & Hi & Hr & Hin & Hne & _ & Hv).
      simpl in Hin, Hne, Hv. injection Hv as ->.
      exists ws, info, room. split; [right; by exists msg, fresh|]. auto.
    + apply elem_of_send in Hp as [_ Hq]. discriminate Hq.
Qed.

Lemma peer_left_only_to_roommates_witness :
  ∃ ws info (room : list conn),
    is_teardown ws (Close 0)
    ∧ peerByWs (state_after pair_trace) !! ws = Some info
    ∧ "alice" = info_userId info
    ∧ 1 ≠ ws
    ∧ rooms (state_after pair_trace) !! info_roomId info = Some room
    ∧ 1 ∈ room.
Proof.
  apply (peer_left_only_to_roommates (state_after pair_trace) (Close 0) 1 "alice").
  apply list_elem_of_In. vm_compute. auto.
Defined.

(** X18. The broadcast helpers send one copy of the payload to each member
    of the room that is open, in the room's insertion order, skipping the
    excluded socket in [broadcastToRoomExcept]; for a room id that is not
    in [rooms] they send nothing. *)
Theorem broadcast_fan_out (s : State) (r : string) (ex : conn) (m : Outbound) :
  broadcastToRoom s r m
  = map (λ w, (w, m))
      (filter (λ w, is_open s w = true) (default [] (rooms s !! r)))
  ∧ broadcastToRoomExcept s r ex m
    = map (λ w, (w, m))
        (filter (λ w, w ≠ ex ∧ is_open s w = true) (default [] (rooms s !! r)))
  ∧ (rooms s !! r = None →
     broadcastToRoom s r m = [] ∧ broadcastToRoomExcept s r ex m = []).
Proof.
  split; [apply broadcastToRoom_eq|]. split.
  - rewrite broadcastToRoomExcept_eq. f_equal. apply list_filter_iff.
    intros w. by rewrite bool_decide_eq_true.
  - intros Hnone. unfold broadcastToRoom, broadcastToRoomExcept.
    by rewrite Hnone.
Qed.

Lemma broadcast_fan_out_witness :
  broadcastToRoom (state_after pair_trace) "nowhere" (OutPeerLeft "alice") = []
  ∧ broadcastToRoomExcept (state_after pair_trace) "nowhere" 0
      (OutPeerLeft "alice") = [].
Proof.
  apply (proj2 (proj2 (broadcast_fan_out (state_after pair_trace) "nowhere" 0
                         (OutPeerLeft "alice")))).
  reflexivity.
Defined.

(** ** Frame properties and bounds *)

Section Frames.
Implicit Types (s : State) (ws w : conn) (room : list conn).

Lemma length_filter_and {A} (P Q : A → Prop)
    `{∀ x, Decision (P x)} `{∀ x, Decision (Q x)} (l : list A) :
  length (filter (λ x, P x ∧ Q x) l) ≤ length (filter P l).
Proof.
  induction l as [|x l IH]; [done|].
  destruct (decide (P x)) as [HP|HP].
  - rewrite (filter_cons_True P) by done.
    destruct (decide (Q x)) as [HQ|HQ].
    + rewrite filter_cons_True by done. simpl. lia.
    + rewrite filter_cons_False by tauto. simpl. lia.
  - rewrite (filter_cons_False P) by done.
    rewrite filter_cons_False by tauto. done.
Qed.

Lemma length_send s w m : length (send s w m) ≤ 1.
Proof. unfold send. destruct (is_open s w); simpl; lia. Qed.

Lemma length_relay_case s ws msg : length (snd (relay_case s ws msg)) ≤ 1.
Proof.
  unfold relay_case. destruct (js_not _); [apply length_send|].
  destruct (rooms s !! _); [|simpl; lia].
  destruct (find _ _); [|apply length_send].
  destruct (negb _); apply length_send.
Qed.

Lemma length_join_case s ws msg fresh :
  length (snd (join_case s ws msg fresh)) ≤ 2.
Proof.
  destruct (join_accepted s msg) eqn:Ea.
  - apply join_accepted_spec in Ea as [Hne Hlen].
    rewrite join_case_accepted by done. cbn [snd]. cbv zeta.
    rewrite length_app, broadcastToRoomExcept_eq, length_map.
    simpl rooms. rewrite lookup_insert_eq. simpl default.
    match goal with |- length (send ?a ?b ?c) + _ ≤ _ =>
      pose proof (length_send a b c) end.
    match goal with |- _ + length (filter _ ?l) ≤ _ =>
      pose proof (length_filter_and (λ w, bool_decide (w ≠ ws) = true)
                    (λ w, is_open
                       (with_peerByWs
                         (<[ws := mkInfo (normalize (msg_roomId msg))
                                    (chosen_userId msg fresh)]> (peerByWs s))
                         (with_rooms
                           (<[normalize (msg_roomId msg) := l]> (rooms s))
                           (set_vars ws (normalize (msg_roomId msg))
                              (chosen_userId msg fresh) s))) w = true) l) as Hf
    end.
    rewrite (list_filter_iff (λ w, bool_decide (w ≠ ws) = true) (λ w, w ≠ ws))
      in Hf by (intros; apply bool_decide_eq_true).
    pose proof (length_others ws _ Hlen). lia.
  - destruct (join_case_rejected s ws msg fresh Ea) as [_ [-> | ->]];
      match goal with |- length (send ?a ?b ?c) ≤ _ =>
        pose proof (length_send a b c) end; lia.
Qed.

Lemma length_leaveRoom s ws :
  Inv s → length (snd (leaveRoom s ws)) ≤ 1.
Proof.
  intros HI. rewrite leaveRoom_out.
  destruct (peerByWs s !! ws) as [info|] eqn:Ei; [|simpl; lia].
  destruct (assoc_ok _ HI _ _ Ei) as (_ & _ & room & Hr & Hin).
  rewrite Hr. simpl default. rewrite length_map.
  destruct (rooms_ok _ HI _ _ Hr) as (_ & _ & Hlen & _).
  pose proof (length_filter (λ w, is_open s w = true) (set_delete ws room)).
  assert (length (set_delete ws room) < length room).
  { unfold set_delete. apply (length_filter_lt _ _ ws); auto. }
  lia.
Qed.

Lemma run_closed tr : ∀ s ws p,
  Inv s → is_closed s ws → p ∈ snd (run s tr) → fst p ≠ ws.
Proof.
  induction tr as [|e tr IH]; intros s ws p HI Hc Hp.
  { by apply not_elem_of_nil in Hp. }
  simpl in Hp. pose proof (Inv_step s e HI) as H1.
  pose proof (is_closed_step s e ws HI Hc) as H2.
  pose proof (step_recipient_open s e p) as H3.
  destruct (step s e) as [s1 o1]. simpl in H1, H2, H3.
  specialize (IH s1 ws p H1 H2).
  destruct (run s1 tr) as [s2 o2]. simpl in IH, Hp.
  apply elem_of_app in Hp as [Hp|Hp]; [|by apply IH].
  intros Heq. rewrite Heq in H3. rewrite is_closed_not_open in H3 by done.
  by specialize (H3 Hp).
Qed.
Lemma set_vars_readyState ws r u s x :
  readyState <$> sockets (set_vars ws r u s) !! x = readyState <$> sockets s !! x.
Proof.
  unfold set_vars. simpl. destruct (decide (ws = x)) as [->|Hne].
  - rewrite lookup_alter_eq. by destruct (sockets s !! x).
  - by rewrite lookup_alter_ne.
Qed.

Lemma join_case_readyState s ws msg fresh x :
  readyState <$> sockets (fst (join_case s ws msg fresh)) !! x
  = readyState <$> sockets s !! x.
Proof.
  unfold join_case. destruct (js_not _); [done|].
  destruct (Nat.leb _ _); [done|]. cbn [fst].
  apply (set_vars_readyState ws _ _ s x).
Qed.
End Frames.

(** X12. Teardown touches only the departing socket's own association and
    its own room: [leaveRoom] never changes a socket record, another
    socket's association or another room; its own room loses exactly that
    socket and disappears when nobody is left; and for a socket without an
    association it does nothing at all. *)
Theorem teardown_frame (s : State) ws w r :
  let s' := fst (leaveRoom s ws) in
  sockets s' = sockets s
  ∧ (w ≠ ws → peerByWs s' !! w = peerByWs s !! w)
  ∧ (∀ info, peerByWs s !! ws = Some info → r ≠ info_roomId info →
       rooms s' !! r = rooms s !! r)
  ∧ (∀ info (room : list conn),
       peerByWs s !! ws = Some info →
       rooms s !! info_roomId info = Some room →
       rooms s' !! info_roomId info
       = if decide (set_delete ws room = []) then None
         else Some (set_delete ws room))
  ∧ (peerByWs s !! ws = None → leaveRoom s ws = (s, [])).
Proof.
  intros s'. split; [apply leaveRoom_sockets|]. split.
  { intros Hne. unfold s'. rewrite leaveRoom_peerByWs. by rewrite lookup_delete_ne. }
  split.
  { intros info Hi Hne. unfold s'. rewrite leaveRoom_rooms_eq, Hi.
    destruct (rooms s !! info_roomId info) as [room|]; [|done].
    destruct (set_delete ws room).
    - by rewrite lookup_delete_ne.
    - by rewrite lookup_insert_ne. }
  split.
  { intros info room Hi Hr. unfold s'. rewrite leaveRoom_rooms_eq, Hi, Hr.
    destruct (set_delete ws room) as [|x l].
    - rewrite decide_True by done. apply lookup_delete_eq.
    - rewrite decide_False by done. apply lookup_insert_eq. }
  intros Hnone. unfold leaveRoom. by rewrite Hnone.
Qed.

Lemma teardown_frame_witness :
  rooms (fst (leaveRoom (state_after pair_trace) 0)) !! "lobby" = Some [1]
  ∧ peerByWs (fst (leaveRoom (state_after pair_trace) 0)) !! 1
    = peerByWs (state_after pair_trace) !! 1.
Proof.
  destruct (teardown_frame (state_after pair_trace) 0 1 "lobby")
    as (_ & H2 & _ & H4 & _).
  split.
  - apply (H4 (mkInfo "lobby" "alice") [0; 1]); reflexivity.
  - apply H2. lia.
Defined.

(** X13. A [join] touches only the joiner and the requested room: it never
    adds, removes or changes the [readyState] of any socket, never changes
    another socket's association or closure variables, or a room under a
    different key; and it never removes a member from any room. *)
Theorem join_frame (s : State) ws msg fresh w r :
  let s' := fst (join_case s ws msg fresh) in
  (∀ x, readyState <$> sockets s' !! x = readyState <$> sockets s !! x)
  ∧ (∀ x, is_open s' x = is_open s x)
  ∧ (w ≠ ws →
     peerByWs s' !! w = peerByWs s !! w
     ∧ sockets s' !! w = sockets s !! w
     ∧ get_roomId s' w = get_roomId s w ∧ get_userId s' w = get_userId s w)
  ∧ (r ≠ normalize (msg_roomId msg) → rooms s' !! r = rooms s !! r)
  ∧ (∀ room : list conn, rooms s !! r = Some room →
       ∃ room' : list conn,
         rooms s' !! r = Some room' ∧ ∀ x, x ∈ room → x ∈ room').
Proof.
  intros s'. split; [intros x; apply join_case_readyState|].
  split; [intros x; apply join_case_is_open|]. split.
  { intros Hne. unfold s'. split; [by apply join_case_peerByWs|].
    unfold join_case. destruct (js_not _); [done|].
    destruct (Nat.leb _ _); [done|]. cbn [fst].
    unfold get_roomId, get_userId. simpl. by rewrite lookup_alter_ne. }
  split.
  { intros Hne. unfold s'. rewrite join_case_rooms_eq.
    destruct (join_accepted s msg); [|done]. by rewrite lookup_insert_ne. }
  intros room Hr. unfold s'. rewrite join_case_rooms_eq.
  destruct (join_accepted s msg); [|by eauto].
  destruct (decide (r = normalize (msg_roomId msg))) as [->|Hne].
  - rewrite lookup_insert_eq, Hr. simpl default. eexists. split; [done|].
    intros x Hx. apply elem_of_set_add. by right.
  - rewrite lookup_insert_ne by done. eauto.
Qed.

Lemma join_frame_witness :
  ∃ room' : list conn,
    rooms (fst (join_case (state_after (take 3 pair_trace)) 1
                  (mkMsg (Some "join") (Some "Lobby") None None None None) "t1"))
      !! "lobby" = Some room'
    ∧ ∀ x, x ∈ [0] → x ∈ room'.
Proof.
  destruct (join_frame (state_after (take 3 pair_trace)) 1
              (mkMsg (Some "join") (Some "Lobby") None None None None) "t1"
              0 "lobby") as (_ & _ & _ & _ & H).
  apply H. reflexivity.
Defined.

(** X15. Once a socket's [close] event has been handled, no packet is ever
    addressed to it again, whatever events follow (the [close] step itself
    included). *)
Theorem closed_socket_gets_nothing (tr tr' : list Event) ws p :
  live (state_after tr) ws = true →
  p ∈ snd (run (state_after tr) (Close ws :: tr')) →
  fst p ≠ ws.
Proof.
  intros Hl Hp. cbn [run] in Hp.
  pose proof (step_recipient_open (state_after tr) (Close ws) p) as Ho.
  pose proof (Inv_step _ (Close ws) (Inv_state_after tr)) as HI1.
  assert (Hc : is_closed (fst (step (state_after tr) (Close ws))) ws).
  { cbn [step]. rewrite Hl. by apply on_close_closes. }
  destruct (step (state_after tr) (Close ws)) as [s1 o1].
  cbn [fst snd] in Ho, HI1, Hc.
  pose proof (run_closed tr' s1 ws p HI1 Hc) as Hrun.
  destruct (run s1 tr') as [s2 o2]. cbn [snd] in Hp, Hrun.
  apply elem_of_app in Hp as [Hp|Hp]; [|by apply Hrun].
  intros Heq. specialize (Ho Hp).
  rewrite Heq, is_closed_not_open in Ho; done.
Qed.

Lemma closed_socket_gets_nothing_witness : 1 ≠ 0.
Proof.
  apply (closed_socket_gets_nothing pair_trace
           [Message 1 (offer_msg (Some "alice") (JStr "v=0")) "t2"] 0
           (1, not_found_error)).
  - reflexivity.
  - apply list_elem_of_In. vm_compute. auto.
Defined.

(** X16. In every reachable state a room in [rooms] is never empty and
    never lists a socket twice: a room whose last member left is deleted,
    not kept. *)
Theorem rooms_wellformed (tr : list Event) r (room : list conn) :
  rooms (state_after tr) !! r = Some room → room ≠ [] ∧ NoDup room.
Proof.
  intros Hr.
  by destruct (rooms_ok _ (Inv_state_after tr) _ _ Hr) as (? & ? & _ & _).
Qed.

Lemma rooms_wellformed_witness : [0; 1] ≠ [] ∧ NoDup [0; 1].
Proof. apply (rooms_wellformed pair_trace "lobby"). reflexivity. Defined.

(** X17. In every reachable state the two registries and the closure
    variables agree on every associated socket: it has not been closed, its
    [roomId] and [userId] variables hold the recorded room and participant
    id, and it is a member of the recorded room. *)
Theorem association_consistent (tr : list Event) ws info :
  let s := state_after tr in
  peerByWs s !! ws = Some info →
  live s ws = true
  ∧ get_roomId s ws = Some (info_roomId info)
  ∧ get_userId s ws = Some (info_userId info)
  ∧ ∃ room : list conn, rooms s !! info_roomId info = Some room ∧ ws ∈ room.
Proof.
  intros s Hi. split; [by eapply AssocLive_state_after|].
  by apply (assoc_ok _ (Inv_state_after tr)).
Qed.

Lemma association_consistent_witness :
  live (state_after pair_trace) 1 = true
  ∧ get_roomId (state_after pair_trace) 1 = Some "lobby"
  ∧ get_userId (state_after pair_trace) 1 = Some "user-t1"
  ∧ ∃ room : list conn,
      rooms (state_after pair_trace) !! "lobby" = Some room ∧ 1 ∈ room.
Proof.
  apply (association_consistent pair_trace 1 (mkInfo "lobby" "user-t1")).
  reflexivity.
Defined.

(** X19. In a state reached without any re-join (no [join] accepted from a
    socket that is already associated), every member of every room is a
    socket that has not been closed: teardown on [close] removed it. *)
Theorem members_live_without_rejoin (tr : list Event) r (room : list conn) w :
  let s := state_after tr in
  no_rejoin init tr = true →
  rooms s !! r = Some room → w ∈ room →
  live s w = true.
Proof.
  intros s Hn Hr Hw.
  assert (HM : MemberAssoc s).
  { apply MemberAssoc_run; [apply Inv_init | apply MemberAssoc_init | done]. }
  destruct (HM _ _ _ Hr Hw) as (info & Hi & _).
  by eapply AssocLive_state_after.
Qed.

Lemma members_live_without_rejoin_witness :
  live (state_after leave_rejoin_trace) 1 = true.
Proof.
  apply (members_live_without_rejoin leave_rejoin_trace "a" [1] 1).
  - reflexivity.
  - reflexivity.
  - apply list_elem_of_In. simpl. auto.
Defined.

(** X21. In every reachable state, handling one event sends at most two
    packets: a [joined] reply plus one [peer-joined], or a single
    [peer-left], relay or error. *)
Theorem at_most_two_packets (tr : list Event) (e : Event) :
  length (snd (step (state_after tr) e)) ≤ 2.
Proof.
  pose proof (Inv_state_after tr) as HI. set (s := state_after tr) in *.
  destruct e as [|ws|ws|ws raw fresh]; cbn [step].
  - simpl. lia.
  - destruct (is_open s ws); simpl; lia.
  - destruct (live s ws); [|simpl; lia]. unfold on_close.
    pose proof (length_leaveRoom _ ws (Inv_set_readyState ws CLOSED s HI)). lia.
  - destruct (live s ws); [|simpl; lia].
    destruct (on_message_cases s ws raw fresh)
      as [[_ H]|[(msg & _ & _ & H)|[(msg & _ & _ & H)|[(msg & _ & _ & H)|(msg & _ & H)]]]];
      rewrite H.
    + cbn [snd]. pose proof (length_send s ws (OutError "Invalid JSON")). lia.
    + apply length_join_case.
    + pose proof (length_relay_case s ws msg). lia.
    + pose proof (length_leaveRoom s ws HI). lia.
    + cbn [snd]. pose proof (length_send s ws (OutError "Unknown message type")).
      lia.
Qed.

(** ** Static file handler *)

Section StaticFiles.
Implicit Types (s : string) (env : NodeEnv).

Lemma strip_dotdot_facts n : ∀ s,
  String.length s ≤ n →
  has_dotdot_prefix (strip_dotdot s) = false
  ∧ (∃ p, s = p +:+ strip_dotdot s)
  ∧ (has_dotdot_prefix s = false → strip_dotdot s = s).
Proof.
  induction n as [n IH] using lt_wf_ind.
  intros s Hlen.
  destruct s as [|a [|b rest]];
    try (split; [done|split; [by exists EmptyString|done]]).
  destruct (is_dot a && is_dot b) eqn:Ed.
  2:{ cbn [strip_dotdot has_dotdot_prefix]. rewrite Ed.
      cbn [has_dotdot_prefix andb]. rewrite Ed.
      split; [done|]. split; [by exists EmptyString|done]. }
  destruct rest as [|c rest'].
  { cbn [strip_dotdot has_dotdot_prefix]. rewrite Ed.
    split; [done|]. split; [|done].
    by exists (String a (String b EmptyString)). }
  destruct (is_sep c) eqn:Es.
  - cbn [strip_dotdot has_dotdot_prefix]. rewrite Ed, Es.
    simpl in Hlen.
    destruct (IH (String.length rest') ltac:(lia) rest' ltac:(lia))
      as (H1 & (p & H2) & _).
    split; [done|]. split; [|done].
    exists (String a (String b (String c p))).
    change (String a (String b (String c rest'))
            = String a (String b (String c (p +:+ strip_dotdot rest')))).
    congruence.
  - cbn [strip_dotdot has_dotdot_prefix]. rewrite Ed, Es.
    cbn [has_dotdot_prefix andb]. rewrite Ed, Es.
    split; [done|]. split; [by exists EmptyString|done].
Qed.
End StaticFiles.

(** X22. The path clean-up of the static handler removes every leading
    [..] segment: the result is a suffix of the input that no longer starts
    with [..] followed by a slash, a backslash or the end of the string; an
    input without such a prefix is returned as it is, so cleaning twice
    changes nothing more. *)
Theorem strip_dotdot_removes_prefix (s : string) :
  has_dotdot_prefix (strip_dotdot s) = false
  ∧ (∃ p, s = p +:+ strip_dotdot s)
  ∧ (has_dotdot_prefix s = false → strip_dotdot s = s)
  ∧ strip_dotdot (strip_dotdot s) = strip_dotdot s.
Proof.
  destruct (strip_dotdot_facts (String.length s) s (le_n _)) as (H1 & H2 & H3).
  split; [done|]. split; [done|]. split; [done|].
  by apply (strip_dotdot_facts (String.length (strip_dotdot s)) _ (le_n _)).
Qed.

Lemma strip_dotdot_removes_prefix_witness :
  strip_dotdot "../..x/a" = "..x/a" ∧ strip_dotdot "index.html" = "index.html".
Proof.
  split; [reflexivity|].
  apply (proj1 (proj2 (proj2 (strip_dotdot_removes_prefix "index.html")))).
  reflexivity.
Defined.

(** X23. The static handler answers 200, 403 or 404 only.  A 200 response
    carries the contents of a file that [readFile] returned for a path
    starting with [PUBLIC], with the content type chosen from that path's
    extension; and a request for ["/"] is answered like one for
    ["/index.html"]. *)
Theorem static_handler_guard (env : NodeEnv) (url : string) :
  (statusCode (handle_request env url) = 200
   ∨ statusCode (handle_request env url) = 403
   ∨ statusCode (handle_request env url) = 404)
  ∧ (statusCode (handle_request env url) = 200 →
     ∃ path data,
       String.prefix (PUBLIC env) path = true
       ∧ readFile env path = Some data
       ∧ body (handle_request env url) = Some data
       ∧ header_contentType (handle_request env url)
         = Some (content_type (path_extname env path)))
  ∧ handle_request env "/" = handle_request env "/index.html".
Proof.
  unfold handle_request.
  set (fp := if String.eqb url "/" then "/index.html" else url).
  set (full := path_join env (PUBLIC env) (strip_dotdot (path_normalize env fp))).
  split; [|split].
  - destruct (String.prefix (PUBLIC env) full); simpl; [|by auto].
    destruct (readFile env full); simpl; auto.
  - destruct (String.prefix (PUBLIC env) full) eqn:Ep; simpl; [|discriminate].
    destruct (readFile env full) as [data|] eqn:Er; simpl; [|discriminate].
    intros _. exists full, data. auto.
  - done.
Qed.

Lemma static_handler_guard_witness :
  ∃ path data,
    String.prefix (PUBLIC sample_env) path = true
    ∧ readFile sample_env path = Some data
    ∧ body (handle_request sample_env "/") = Some data
    ∧ header_contentType (handle_request sample_env "/")
      = Some (content_type (path_extname sample_env path)).
Proof.
  apply (proj1 (proj2 (static_handler_guard sample_env "/"))). reflexivity.
Defined.

(** ** The general shape of join and teardown *)

Section GeneralShape.
Implicit Types (s : State) (ws w : conn) (room : list conn).

Lemma filter_ext_elem {A} (P Q : A → Prop)
    `{∀ x, Decision (P x)} `{∀ x, Decision (Q x)} (l : list A) :
  (∀ x, x ∈ l → P x ↔ Q x) → filter P l = filter Q l.
Proof.
  induction l as [|x l IH]; intros Hext; [done|].
  assert (Hl : filter P l = filter Q l).
  { apply IH. intros y Hy. apply Hext. by right. }
  destruct (decide (P x)) as [HP|HP].
  - rewrite (filter_cons_True P) by done.
    rewrite (filter_cons_True Q); [by rewrite Hl|].
    apply Hext; [by left|done].
  - rewrite (filter_cons_False P) by done.
    rewrite (filter_cons_False Q); [done|].
    intros HQ. apply HP, Hext; [by left|done].
Qed.

Lemma filter_set_add_others (Q : conn → Prop) `{∀ x, Decision (Q x)} ws room :
  filter (λ w, w ≠ ws ∧ Q w) (set_add ws room)
  = filter (λ w, w ≠ ws ∧ Q w) room.
Proof.
  unfold set_add. destruct (decide (ws ∈ room)); [done|].
  rewrite filter_app, filter_cons_False by tauto.
  by rewrite filter_nil, app_nil_r.
Qed.

Lemma filter_set_add_ne ws room :
  filter (λ w, w ≠ ws) (set_add ws room) = filter (λ w, w ≠ ws) room.
Proof.
  unfold set_add. destruct (decide (ws ∈ room)); [done|].
  rewrite filter_app, filter_cons_False by auto.
  by rewrite filter_nil, app_nil_r.
Qed.
End GeneralShape.

(** X24. A [peer-joined] notification is only ever sent because of an
    accepted [join] from another socket [ws]: it carries the normalized
    room id and the participant id chosen by that [join], and goes to a
    socket that was a member of that room before the join, never to the
    joiner. *)
Theorem peer_joined_only_to_roommates (s : State) (e : Event) w r u :
  (w, OutPeerJoined r u) ∈ snd (step s e) →
  ∃ ws msg fresh,
    e = Message ws (Json msg) fresh ∧ msg_type msg = Some "join"
    ∧ join_accepted s msg = true
    ∧ r = normalize (msg_roomId msg) ∧ u = chosen_userId msg fresh
    ∧ w ≠ ws
    ∧ w ∈ default [] (rooms s !! r).
Proof.
  intros Hp. destruct (step_out s e _ Hp)
    as [(ws & -> & Hl & Heq)|(ws & raw & fresh & -> & Hl & Heq)];
    rewrite Heq in Hp.
  - apply elem_of_leaveRoom in Hp as (? & ? & _ & _ & _ & _ & _ & Hv).
    discriminate Hv.
  - destruct (on_message_cases s ws raw fresh)
      as [[_ H]|[(msg & -> & Ht & H)|[(msg & _ & _ & H)|[(msg & _ & _ & H)|(msg & _ & H)]]]];
      rewrite H in Hp.
    + apply elem_of_send in Hp as [_ Hq]. discriminate Hq.
    + apply elem_of_join_case in Hp
        as [_ [(_ & _ & _ & _ & [Hv|Hv])|(Ha & [(_ & ? & Hv & _)|(Hne & Hv & Hin)])]];
        try discriminate Hv.
      simpl in Hne, Hv, Hin. injection Hv as -> ->.
      exists ws, msg, fresh. auto 10.
    + apply elem_of_relay_case in Hp
        as (_ & _ & [(_ & [Hv|Hv])|(_ & Hv & _)]); discriminate Hv.
    + apply elem_of_leaveRoom in Hp as (? & ? & _ & _ & _ & _ & _ & Hv).
      discriminate Hv.
    + apply elem_of_send in Hp as [_ Hq]. discriminate Hq.
Qed.

Lemma peer_joined_only_to_roommates_witness :
  ∃ ws msg fresh,
    Message 1 (join_msg "Lobby" None) "t1" = Message ws (Json msg) fresh
    ∧ msg_type msg = Some "join"
    ∧ join_accepted (state_after (take 3 pair_trace)) msg = true
    ∧ "lobby" = normalize (msg_roomId msg) ∧ "user-t1" = chosen_userId msg fresh
    ∧ 0 ≠ ws
    ∧ 0 ∈ default [] (rooms (state_after (take 3 pair_trace)) !! "lobby").
Proof.
  apply (peer_joined_only_to_roommates (state_after (take 3 pair_trace))
           (Message 1 (join_msg "Lobby" None) "t1") 0 "lobby" "user-t1").
  apply list_elem_of_In. vm_compute. auto.
Defined.

(** X25. What an accepted [join] does, in terms of the state before it: the
    joiner is appended to the members of the requested room unless it is
    one already, it is recorded with the normalized room id and the chosen
    participant id in [peerByWs] and in its closure variables, its [joined]
    reply (sent if it is open) lists the recorded ids of the other members
    in room order, and each other member that is open gets one
    [peer-joined]. *)
Theorem join_accepted_effect (s : State) ws msg fresh :
  let r := normalize (msg_roomId msg) in
  let u := chosen_userId msg fresh in
  let old := default [] (rooms s !! r) in
  let after := step s (Message ws (Json msg) fresh) in
  msg_type msg = Some "join" →
  live s ws = true →
  join_accepted s msg = true →
  rooms (fst after) !! r = Some (set_add ws old)
  ∧ peerByWs (fst after) !! ws = Some (mkInfo r u)
  ∧ get_roomId (fst after) ws = Some r
  ∧ get_userId (fst after) ws = Some u
  ∧ snd after
    = (if is_open s ws
       then [(ws, OutJoined r u
                    (map (participant_id s) (filter (λ w, w ≠ ws) old)))]
       else [])
      ++ map (λ w, (w, OutPeerJoined r u))
           (filter (λ w, w ≠ ws ∧ is_open s w = true) old).
Proof.
  intros r u old after Ht Hl Ha. unfold after.
  rewrite step_message_live by done. rewrite on_message_join by done.
  apply join_accepted_spec in Ha as [Hne Hlen].
  rewrite join_case_accepted by done. cbn [fst snd]. cbv zeta.
  fold r u old. set (s3 := with_peerByWs _ _).
  destruct (live_socket _ _ Hl) as [k Hk].
  assert (Hopen : ∀ w, is_open s3 w = is_open s w).
  { intros w. unfold s3.
    erewrite is_open_sockets; [apply is_open_set_vars|done]. }
  split; [unfold s3; simpl; by rewrite lookup_insert_eq|].
  split; [unfold s3; simpl; by rewrite lookup_insert_eq|].
  split; [unfold s3, get_roomId; simpl; by rewrite lookup_alter_eq, Hk|].
  split; [unfold s3, get_userId; simpl; by rewrite lookup_alter_eq, Hk|].
  f_equal.
  - unfold send. rewrite Hopen. destruct (is_open s ws); [|done].
    do 3 f_equal. rewrite filter_set_add_ne.
    apply map_ext_in. intros w Hw%list_elem_of_In.
    apply list_elem_of_filter in Hw as [Hw _].
    unfold participant_id, s3. simpl. by rewrite lookup_insert_ne.
  - rewrite broadcastToRoomExcept_eq.
    replace (rooms s3 !! r) with (Some (set_add ws old))
      by (unfold s3; simpl; by rewrite lookup_insert_eq).
    simpl default. f_equal.
    rewrite <- (filter_set_add_others (λ w, is_open s w = true) ws old).
    apply list_filter_iff. intros w.
    by rewrite bool_decide_eq_true, Hopen.
Qed.

Lemma join_accepted_effect_witness :
  snd (step (state_after (take 3 pair_trace))
         (Message 1 (join_msg "Lobby" None) "t1"))
  = [(1, OutJoined "lobby" "user-t1" [Some "alice"])]
    ++ [(0, OutPeerJoined "lobby" "user-t1")].
Proof.
  apply (join_accepted_effect (state_after (take 3 pair_trace)) 1
           (mkMsg (Some "join") (Some "Lobby") None None None None) "t1");
    reflexivity.
Defined.

(** X26. What a teardown sends, in terms of the state before it: when an
    associated socket that is not closed leaves or disconnects, each other
    member of its room that is open gets exactly one [peer-left] with the
    departing socket's recorded id, in room order, and nothing else is
    sent. *)
Theorem teardown_notifies_remaining (s : State) ws info (e : Event) :
  is_teardown ws e →
  live s ws = true →
  peerByWs s !! ws = Some info →
  snd (step s e)
  = map (λ w, (w, OutPeerLeft (info_userId info)))
      (filter (λ w, is_open s w = true)
         (set_delete ws (default [] (rooms s !! info_roomId info)))).
Proof.
  intros [->|(msg & fresh & -> & Ht)] Hl Hi.
  - cbn [step]. rewrite Hl. unfold on_close. rewrite leaveRoom_out.
    change (peerByWs (set_readyState ws CLOSED s)) with (peerByWs s).
    change (rooms (set_readyState ws CLOSED s)) with (rooms s).
    rewrite Hi. f_equal. apply filter_ext_elem.
    intros w [Hne _]%elem_of_set_delete.
    by rewrite is_open_set_readyState_ne.
  - rewrite step_message_live by done. rewrite on_message_leave by done.
    by rewrite leaveRoom_out, Hi.
Qed.

Lemma teardown_notifies_remaining_witness :
  snd (step (state_after pair_trace) (Message 1 leave_msg "t2"))
  = [(0, OutPeerLeft "user-t1")].
Proof.
  apply (teardown_notifies_remaining (state_after pair_trace) 1
           (mkInfo "lobby" "user-t1") (Message 1 leave_msg "t2")).
  - right. eexists _, _. split; reflexivity.
  - reflexivity.
  - reflexivity.
Defined.

(** ** Teardown: what it does once, and what follows it *)

Section AfterTeardown.
Implicit Types (s : State) (ws w x : conn) (p : Packet).








Lemma leaveRoom_rooms_decide s ws info (room : list conn) :
  peerByWs s !! ws = Some info →
  rooms s !! info_roomId info = Some room →
  rooms (fst (leaveRoom s ws))
  = if decide (set_delete ws room = [])
    then delete (info_roomId info) (rooms s)
    else <[info_roomId info := set_delete ws room]> (rooms s).
Proof.
  intros Hi Hr. rewrite leaveRoom_rooms_eq, Hi, Hr.
  destruct (set_delete ws room) as [|y l].
  - by rewrite decide_True.
  - by rewrite decide_False.
Qed.
End AfterTeardown.



(** C9. Teardown takes effect exactly once.  For every state and socket:
    the first [leaveRoom] on an associated socket removes its entry from
    [peerByWs], replaces its room by the member set without it — deleting
    the room when that set is empty — and sends one [peer-left] to each
    remaining member that is open; after it the socket has no association,
    and a second [leaveRoom] returns the same state and sends nothing.  A
    [leave] message on a socket that is not closed is that [leaveRoom], and
    a [close] event after it changes neither registry and sends
    nothing. *)
Theorem teardown_idempotent (s : State) (ws : conn) (fresh : string) :
  let s1 := fst (leaveRoom s ws) in
  let s1' := fst (step s (Message ws leave_msg fresh)) in
  (∀ info (room : list conn),
     peerByWs s !! ws = Some info →
     rooms s !! info_roomId info = Some room →
     peerByWs s1 = delete ws (peerByWs s)
     ∧ rooms s1
       = (if decide (set_delete ws room = [])
          then delete (info_roomId info) (rooms s)
          else <[info_roomId info := set_delete ws room]> (rooms s))
     ∧ snd (leaveRoom s ws)
       = map (λ w, (w, OutPeerLeft (info_userId info)))
           (filter (λ w, is_open s w = true) (set_delete ws room)))
  ∧ peerByWs s1 !! ws = None
  ∧ leaveRoom s1 ws = (s1, [])
  ∧ (live s ws = true → step s (Message ws leave_msg fresh) = leaveRoom s ws)
  ∧ rooms (fst (step s1' (Close ws))) = rooms s1'
  ∧ peerByWs (fst (step s1' (Close ws))) = peerByWs s1'
  ∧ snd (step s1' (Close ws)) = []
  ∧ (live s ws = true →
     snd (run s [Message ws leave_msg fresh; Close ws]) = snd (leaveRoom s ws)).
Proof.
  intros s1 s1'.
  assert (Hnone : peerByWs s1 !! ws = None).
  { unfold s1. by rewrite leaveRoom_peerByWs, lookup_delete_eq. }
  split.
  { intros info room Hi Hr. split; [apply leaveRoom_peerByWs|]. split.
    - by apply leaveRoom_rooms_decide.
    - by rewrite leaveRoom_out, Hi, Hr. }
  split; [done|]. split.
  { unfold leaveRoom at 1. by rewrite Hnone. }
  split.
  { intros Hl. by rewrite step_message_live. }
  assert (Hclose : ∀ s0, peerByWs s0 !! ws = None →
            rooms (fst (step s0 (Close ws))) = rooms s0
            ∧ peerByWs (fst (step s0 (Close ws))) = peerByWs s0
            ∧ snd (step s0 (Close ws)) = []).
  { intros s0 H0. cbn [step]. destruct (live s0 ws); [|done].
    unfold on_close, leaveRoom.
    change (peerByWs (set_readyState ws CLOSED s0)) with (peerByWs s0).
    by rewrite H0. }
  assert (Hsteps : rooms (fst (step s1' (Close ws))) = rooms s1'
                   ∧ peerByWs (fst (step s1' (Close ws))) = peerByWs s1'
                   ∧ snd (step s1' (Close ws)) = []).
  { unfold s1'. cbn [step]. destruct (live s ws) eqn:El.
    - change (on_message s ws leave_msg fresh) with (leaveRoom s ws).
      by apply Hclose.
    - cbn [fst]. by rewrite El. }
  destruct Hsteps as (H1 & H2 & H3).
  split; [done|]. split; [done|]. split; [done|].
  intros Hl. cbn [run]. rewrite step_message_live by done.
  change (on_message s ws leave_msg fresh) with (leaveRoom s ws).
  destruct (Hclose s1 Hnone) as (_ & _ & Hout). unfold s1 in Hout.
  destruct (leaveRoom s ws) as [s2 o2]. cbn [fst snd] in Hout |- *.
  destruct (step s2 (Close ws)) as [s3 o3]. cbn [snd] in Hout |- *.
  subst o3. by rewrite !app_nil_r.
Qed.

Lemma teardown_idempotent_witness :
  let s := state_after pair_trace in
  peerByWs (fst (leaveRoom s 0)) = delete 0 (peerByWs s)
  ∧ rooms (fst (leaveRoom s 0)) = <["lobby" := [1]]> (rooms s)
  ∧ snd (leaveRoom s 0) = [(1, OutPeerLeft "alice")].
Proof.
  apply (proj1 (teardown_idempotent (state_after pair_trace) 0 "t2")
           (mkInfo "lobby" "alice") [0; 1]); reflexivity.
Defined.
